(** * PyOBSim: the limit-order book of [pyobsim/book.py]

    A shallow embedding of [Book] (admission, matching, execution,
    cancellation, the named-parameter store and participant registration)
    and the properties of its specification.

    Python objects are modelled by reference: an [Order] lives in an object
    store and the two [Side]s hold references to it, so that a quantity
    reduced by [execute] is seen by the side the order rests on.  Exceptions
    keep the state reached when they are raised.  The [while] loop of
    [_match] runs on fuel.

    [book.py] is the only module of the package at hand: [Order],
    [Participant] and [Side] are modelled from the specification, and the
    error classes are the names [book.py] imports. *)

From Stdlib Require Import ZArith Lia.
From stdpp Require Import base functions gmap strings list sorting.

Local Open Scope Z_scope.

(** ** Exceptions *)

Inductive exn : Type :=
  | InsufficientFundsError
  | InsufficientVolumeError
  | PriceOutOfRangeError
  | NoPriceError
  | ParticipantAlreadyExistsError
  | NoSuchParameterError
  | NameError (name : string)
  | KeyError (key : string)
  | UnboundLocalError (var : string).

(** The exception classes bound in the module namespace of [book.py]: the
    names listed by [from .errors import ...] (lines 5-6). *)
Definition module_globals : list (string * exn) :=
  [ ("InsufficientFundsError", InsufficientFundsError);
    ("InsufficientVolumeError", InsufficientVolumeError);
    ("PriceOutOfRangeError", PriceOutOfRangeError);
    ("NoPriceError", NoPriceError);
    ("ParticipantAlreadyExistsError", ParticipantAlreadyExistsError) ].

Fixpoint assoc {A : Type} (k : string) (l : list (string * A)) : option A :=
  match l with
  | [] => None
  | (k', v) :: rest => if String.eqb k k' then Some v else assoc k rest
  end.

(** What [raise X()] raises: the class bound to the name [X], or a
    [NameError] when the module binds no such name. *)
Definition exception_named (n : string) : exn :=
  match assoc n module_globals with
  | Some e => e
  | None => NameError n
  end.

(** ** Data *)

(** Modelled from the spec: the class [Order] of [pyobsim/order.py], which is
    not among the sources, with the attributes [book.py] reads and writes.
    The owner is the name under which the participant is registered.
    Prices and balances are counted in the minimum currency increment
    (5.00 is 500), quantities and positions in units. *)
Record Order : Type := mkOrder {
  oid : Z;
  owner : string;
  otype : string;
  symbol : string;
  price : Z;
  qty : Z
}.

(** Modelled from the spec: the class [Participant] of
    [pyobsim/participant.py], which is not among the sources: a name, a
    balance and a position (the attribute [volume]). *)
Record Participant : Type := mkParticipant {
  pname : string;
  balance : Z;
  volume : Z
}.

(** References to order objects, and the object store. *)
Abbreviation loc := nat (only parsing).
Abbreviation store := (nat → Order) (only parsing).

Definition set_oid (i : Z) (o : Order) : Order :=
  mkOrder i (owner o) (otype o) (symbol o) (price o) (qty o).

Definition sub_qty (a : Z) (o : Order) : Order :=
  mkOrder (oid o) (owner o) (otype o) (symbol o) (price o) (qty o - a).

(** ** Side *)

Module Side.

(** Modelled from the spec: the class [Side] of [pyobsim/side.py], which is
    not among the sources.  A side is its direction tag and its price
    levels, best price first; a level is the queue of the orders resting at
    one price, oldest first. *)
Record t : Type := mk {
  stype : string;
  levels : list (Z * list loc)
}.

(** [outranks st p q]: on a side of direction [st], price [p] has priority
    over price [q] (highest first for BID, lowest first for ASK). *)
Definition outranks (st : string) (p q : Z) : bool :=
  if String.eqb st "BID" then q <? p else p <? q.

(** Modelled from the spec: [Side.best], the best resting price; fails with
    NoPrice when the side is empty. *)
Definition best (s : t) : exn + Z :=
  match levels s with
  | [] => inl NoPriceError
  | (p, _) :: _ => inr p
  end.

(** Modelled from the spec: [Side.prices], the distinct resting prices,
    best first. *)
Definition prices (s : t) : list Z := map fst (levels s).

(** Modelled from the spec: the lookup of the level at a price. *)
Fixpoint find_level (p : Z) (lvls : list (Z * list loc)) : option (list loc) :=
  match lvls with
  | [] => None
  | (q, queue) :: rest => if p =? q then Some queue else find_level p rest
  end.

(** Modelled from the spec: [Side.get], the queue of the orders resting at
    exactly that price, as it is when the call is made; fails with NoPrice
    when the side has no level at that price. *)
Definition get (s : t) (p : Z) : exn + list loc :=
  match find_level p (levels s) with
  | Some queue => inr queue
  | None => inl NoPriceError
  end.

(** Modelled from the spec: the insertion behind [Side.put], at the end of
    the level of the price, a new level taking its place in priority
    order. *)
Fixpoint insert_level (st : string) (p : Z) (l : loc)
    (lvls : list (Z * list loc)) : list (Z * list loc) :=
  match lvls with
  | [] => [(p, [l])]
  | (q, queue) :: rest =>
      if p =? q then (q, queue ++ [l]) :: rest
      else if outranks st p q then (p, [l]) :: (q, queue) :: rest
      else (q, queue) :: insert_level st p l rest
  end.

(** Modelled from the spec: [Side.put], which inserts the order at the
    level of its price (creating the level if absent), at the end of that
    level's queue. *)
Definition put (h : store) (s : t) (l : loc) : t :=
  mk (stype s) (insert_level (stype s) (price (h l)) l (levels s)).

(** Modelled from the spec: the orders of a queue that do not bear the
    identifier [i]. *)
Definition others (h : store) (i : Z) (queue : list loc) : list loc :=
  filter (fun l => oid (h l) ≠ i) queue.

(** Modelled from the spec: the removal behind [Side.remove], level by
    level. *)
Fixpoint remove_levels (h : store) (i : Z)
    (lvls : list (Z * list loc)) : list (Z * list loc) :=
  match lvls with
  | [] => []
  | (p, queue) :: rest =>
      match others h i queue with
      | [] => remove_levels h i rest
      | o :: queue' => (p, o :: queue') :: remove_levels h i rest
      end
  end.

(** Modelled from the spec: [Side.remove], which removes the order with
    that identifier wherever it rests and does nothing when the identifier
    is absent; a level left without orders ceases to exist. *)
Definition remove (h : store) (s : t) (i : Z) : t :=
  mk (stype s) (remove_levels h i (levels s)).

(** Modelled from the spec: the resting quantity of one level. *)
Definition queue_volume (h : store) (queue : list loc) : Z :=
  fold_right (fun l acc => qty (h l) + acc) 0 queue.

(** Modelled from the spec: [Side.volume], the sum of the resting
    quantities over all levels. *)
Definition volume (h : store) (s : t) : Z :=
  fold_right (fun lv acc => queue_volume h (snd lv) + acc) 0 (levels s).

(** Modelled from the spec: [Side.depth], the count of distinct price
    levels. *)
Definition depth (s : t) : Z := Z.of_nat (List.length (levels s)).

(** The resting orders in priority order: level by level, best price
    first, and oldest first within a level. *)
Definition resting (s : t) : list loc := concat (map snd (levels s)).

End Side.

(** ** Book *)

Record Book : Type := mkBook {
  name : string;
  participants_ : gmap string Participant;
  params_ : gmap string Z;
  bids : Side.t;
  asks : Side.t;
  LTP : Z
}.

(** The order objects and the book. *)
Record World : Type := mkWorld {
  heap : store;
  book : Book
}.

(** Which of the book's two [Side] objects a variable refers to. *)
Inductive side_ref : Type := Bids | Asks.

#[global] Instance side_ref_eq_dec : EqDecision side_ref.
Proof. solve_decision. Defined.

Definition side_of (r : side_ref) (b : Book) : Side.t :=
  match r with Bids => bids b | Asks => asks b end.

Definition with_side (r : side_ref) (s : Side.t) (b : Book) : Book :=
  match r with
  | Bids => mkBook (name b) (participants_ b) (params_ b) s (asks b) (LTP b)
  | Asks => mkBook (name b) (participants_ b) (params_ b) (bids b) s (LTP b)
  end.

Definition with_LTP (p : Z) (b : Book) : Book :=
  mkBook (name b) (participants_ b) (params_ b) (bids b) (asks b) p.

Definition with_params (ps : gmap string Z) (b : Book) : Book :=
  mkBook (name b) (participants_ b) ps (bids b) (asks b) (LTP b).

(** ** Computations: state, exceptions and divergence *)

Inductive result (A : Type) : Type :=
  | Return (a : A)
  | Raise (e : exn)
  | OutOfFuel.
Arguments Return {A} a.
Arguments Raise {A} e.
Arguments OutOfFuel {A}.

Definition M (A : Type) : Type := World → World * result A.

Definition ret {A : Type} (a : A) : M A := fun w => (w, Return a).

Definition bind {A B : Type} (m : M A) (k : A → M B) : M B :=
  fun w =>
    match m w with
    | (w', Return a) => k a w'
    | (w', Raise e) => (w', Raise e)
    | (w', OutOfFuel) => (w', OutOfFuel)
    end.

Definition raise {A : Type} (e : exn) : M A := fun w => (w, Raise e).

Definition diverge {A : Type} : M A := fun w => (w, OutOfFuel).

Declare Scope py_scope.
Delimit Scope py_scope with py.

Notation "x <- c1 ;; c2" := (bind c1 (fun x => c2))
  (at level 100, c1 at next level, right associativity) : py_scope.
Notation "c1 ;; c2" := (bind c1 (fun _ => c2))
  (at level 100, right associativity) : py_scope.

Local Open Scope py_scope.

(** [try: m except ...: handler]: the handler runs in the state the
    exception left behind; an exception it does not select propagates. *)
Definition try_except {A : Type} (m : M A) (handler : exn → option (M A)) : M A :=
  fun w =>
    match m w with
    | (w', Raise e) =>
        match handler e with
        | Some k => k w'
        | None => (w', Raise e)
        end
    | r => r
    end.

Definition lift {A : Type} (r : exn + A) : M A :=
  match r with
  | inl e => raise e
  | inr a => ret a
  end.

Definition get_book : M Book := fun w => (w, Return (book w)).

Definition get_heap : M store := fun w => (w, Return (heap w)).

Definition read (l : loc) : M Order := fun w => (w, Return (heap w l)).

Definition modify_book (f : Book → Book) : M unit :=
  fun w => (mkWorld (heap w) (f (book w)), Return tt).

Definition modify_order (l : loc) (f : Order → Order) : M unit :=
  fun w => (mkWorld (<[l := f (heap w l)]> (heap w)) (book w), Return tt).

(** Truth value of an optional amount: [None] and [0] are false. *)
Definition truthy (amt : option Z) : bool :=
  match amt with
  | Some a => negb (a =? 0)
  | None => false
  end.

(** ** Book: construction and views *)

Definition deepcopy {A : Type} (x : A) : A := x.

(** [Book.__init__]: the participants dictionary is built from the list,
    keyed by name; the parameters are copied; both sides start empty and
    LTP is 0. *)
Definition Book_init (nm : string) (ps : list Participant)
    (params : option (gmap string Z)) : Book :=
  mkBook nm
    (fold_left (fun d p => <[pname p := p]> d) ps ∅)
    (match params with Some d => deepcopy d | None => ∅ end)
    (Side.mk "BID" []) (Side.mk "ASK" []) 0.

(** The [participants] property: a deep copy of the private dictionary. *)
Definition participants (b : Book) : gmap string Participant :=
  deepcopy (participants_ b).

(** The [volume] property: [(self.bids.volume, self.asks.volume)]. *)
Definition Book_volume (w : World) : Z * Z :=
  (Side.volume (heap w) (bids (book w)), Side.volume (heap w) (asks (book w))).

(** The [depth] property. *)
Definition Book_depth (b : Book) : Z * Z :=
  (Side.depth (bids b), Side.depth (asks b)).

(** The [top] property: [(self.bids.best, self.asks.best)]. *)
Definition Book_top (b : Book) : exn + Z * Z :=
  match Side.best (bids b) with
  | inl e => inl e
  | inr pb =>
      match Side.best (asks b) with
      | inl e => inl e
      | inr pa => inr (pb, pa)
      end
  end.

Definition participants_view : M (gmap string Participant) :=
  b <- get_book ;; ret (participants b).

(** [d[k]] on a dictionary of participants. *)
Definition getitem (d : gmap string Participant) (k : string) : M Participant :=
  match d !! k with
  | Some p => ret p
  | None => raise (KeyError k)
  end.

(** [d[k].balance += delta] and [d[k].volume += delta]: the dictionary [d]
    after the update of the participant it holds. *)
Definition iadd_balance (d : gmap string Participant) (k : string) (delta : Z)
    : M (gmap string Participant) :=
  p <- getitem d k ;;
  ret (<[k := mkParticipant (pname p) (balance p + delta) (volume p)]> d).

Definition iadd_volume (d : gmap string Participant) (k : string) (delta : Z)
    : M (gmap string Participant) :=
  p <- getitem d k ;;
  ret (<[k := mkParticipant (pname p) (balance p) (volume p + delta)]> d).

(** [d[k] = v]. *)
Definition setitem (d : gmap string Participant) (k : string) (v : Participant)
    : M (gmap string Participant) :=
  ret (<[k := v]> d).

(** ** Book: parameters and registration *)

Definition set_param (nm : string) (value : Z) : M unit :=
  b <- get_book ;;
  match params_ b !! nm with
  | None => raise (exception_named "NoSuchParameterError")
  | Some _ => modify_book (with_params (<[nm := value]> (params_ b)))
  end.

Definition get_param (nm : string) : M Z :=
  b <- get_book ;;
  match params_ b !! nm with
  | None => raise (exception_named "NoSuchParameterError")
  | Some v => ret v
  end.

(** The assignment of line 84 goes through the [participants] property:
    the dictionary that receives the new entry is the copy. *)
Definition add_participant (p : Participant) : M unit :=
  b <- get_book ;;
  match participants_ b !! pname p with
  | Some _ => raise (exception_named "ParticipantAlreadyExistsError")
  | None =>
      d <- participants_view ;;
      _ <- setitem d (pname p) p ;;
      ret tt
  end.

(** ** Book: settlement and execution *)

(** One pair of statements of [_payout]: each reads [self.participants]
    anew and updates the participant found in that copy. *)
Definition settle (k : string) (dbalance dvolume : Z) : M unit :=
  d <- participants_view ;;
  _ <- iadd_balance d k dbalance ;;
  d' <- participants_view ;;
  _ <- iadd_volume d' k dvolume ;;
  ret tt.

Definition _payout (side : side_ref) (order : loc) (amt : option Z) : M unit :=
  b <- get_book ;;
  o <- read order ;;
  if String.eqb (Side.stype (side_of side b)) "BID" then
    if truthy amt then
      settle (owner o) (- (price o * default 0 amt)) (default 0 amt)
    else
      settle (owner o) (- (price o * qty o)) (qty o)
  else if String.eqb (Side.stype (side_of side b)) "ASK" then
    if truthy amt then
      settle (owner o) (price o * default 0 amt) (- default 0 amt)
    else
      settle (owner o) (price o * qty o) (- qty o)
  else ret tt.

(** [side.remove(oid)] on one of the book's sides. *)
Definition side_remove (r : side_ref) (i : Z) : M unit :=
  fun w =>
    (mkWorld (heap w)
       (with_side r (Side.remove (heap w) (side_of r (book w)) i) (book w)),
     Return tt).

(** [side.put(order)] on one of the book's sides. *)
Definition side_put (r : side_ref) (order : loc) : M unit :=
  fun w =>
    (mkWorld (heap w)
       (with_side r (Side.put (heap w) (side_of r (book w)) order) (book w)),
     Return tt).

Definition execute (order : loc) (amt : option Z) : M unit :=
  o <- read order ;;
  (if truthy amt then
     if String.eqb (otype o) "BID" then
       _payout Bids order amt ;;
       modify_order order (sub_qty (default 0 amt))
     else if String.eqb (otype o) "ASK" then
       _payout Asks order amt ;;
       modify_order order (sub_qty (default 0 amt))
     else ret tt
   else
     if String.eqb (otype o) "BID" then
       _payout Bids order None ;;
       side_remove Bids (oid o)
     else if String.eqb (otype o) "ASK" then
       _payout Asks order None ;;
       side_remove Asks (oid o)
     else ret tt) ;;
  o' <- read order ;;
  modify_book (with_LTP (price o')).

(** [cancel]. *)
Definition cancel (i : Z) : M unit :=
  side_remove Bids i ;;
  side_remove Asks i.

(** ** Book: matching *)

(** The loop [for o in level] of lines 116-129 over the orders
    [counter_side.get(price)] handed out; the result is [matched]. *)
Fixpoint for_level (order : loc) (level : list loc) : M bool :=
  match level with
  | [] => ret false
  | o :: level' =>
      inc <- read order ;;
      rst <- read o ;;
      if qty inc <? qty rst then
        execute order None ;;
        inc' <- read order ;;
        execute o (Some (qty inc')) ;;
        ret true
      else if qty inc =? qty rst then
        execute order None ;;
        execute o None ;;
        ret true
      else
        execute order (Some (qty rst)) ;;
        execute o None ;;
        for_level order level'
  end.

(** The loop [while not matched] of lines 110-129 at one price; [level] is
    the local variable of that name ([None] while unbound).  The loop is
    left by [break] when the level is gone, or with [matched] set. *)
Fixpoint while_not_matched (fuel : nat) (counter_side : side_ref) (order : loc)
    (p : Z) (level : option (list loc)) : M (bool * option (list loc)) :=
  match fuel with
  | O => diverge
  | S fuel' =>
      b <- get_book ;;
      match Side.get (side_of counter_side b) p with
      | inl NoPriceError => ret (false, level)
      | inl e => raise e
      | inr queue =>
          matched <- for_level order queue ;;
          if matched then ret (true, Some queue)
          else while_not_matched fuel' counter_side order p (Some queue)
      end
  end.

(** The loop [for price in counter_side.prices] of lines 107-137. *)
Fixpoint for_prices (fuel : nat) (counter_side : side_ref) (order : loc)
    (ps : list Z) (level : option (list loc)) : M unit :=
  match ps with
  | [] => ret tt
  | p :: ps' =>
      r <- while_not_matched fuel counter_side order p level ;;
      if fst r then ret tt
      else
        match snd r with
        | None => raise (UnboundLocalError "level")
        | Some queue =>
            if (List.length queue =? 0)%nat then ret tt
            else for_prices fuel counter_side order ps' (Some queue)
        end
  end.

Definition _match (fuel : nat) (counter_side : side_ref) (order : loc) : M unit :=
  b <- get_book ;;
  o <- read order ;;
  let st := Side.stype (side_of counter_side b) in
  good_price <-
    (if String.eqb st "BID" then
       top <- lift (Side.best (side_of counter_side b)) ;;
       ret (price o <=? top)
     else if String.eqb st "ASK" then
       top <- lift (Side.best (side_of counter_side b)) ;;
       ret (top <=? price o)
     else raise (UnboundLocalError "good_price")) ;;
  if good_price : bool then
    h <- get_heap ;;
    if qty o <=? Side.volume h (side_of counter_side b) then
      for_prices fuel counter_side order (Side.prices (side_of counter_side b)) None
    else raise (exception_named "InsufficientVolumeError")
  else raise (exception_named "PriceOutOfRangeError").

(** ** Book: admission *)

(** The handler shared by the four [except] clauses of [add]. *)
Definition rest_on (own : side_ref) (order : loc) : M (option Z) :=
  fun w =>
    let i := fst (Book_volume w) + snd (Book_volume w) + 1 in
    (modify_order order (set_oid i) ;;
     side_put own order ;;
     ret (Some i)) w.

Definition resting_handler (own : side_ref) (order : loc) (e : exn)
    : option (M (option Z)) :=
  match e with
  | InsufficientVolumeError => Some (rest_on own order)
  | PriceOutOfRangeError => Some (rest_on own order)
  | _ => None
  end.

Definition add (fuel : nat) (order : loc) : M (option Z) :=
  o <- read order ;;
  if String.eqb (otype o) "BID" then
    d <- participants_view ;;
    p <- getitem d (owner o) ;;
    if price o * qty o <=? balance p then
      try_except (_match fuel Asks order ;; ret None) (resting_handler Bids order)
    else raise (exception_named "InsufficientFundsError")
  else if String.eqb (otype o) "ASK" then
    d <- participants_view ;;
    p <- getitem d (owner o) ;;
    if qty o <=? volume p then
      try_except (_match fuel Bids order ;; ret None) (resting_handler Asks order)
    else raise (exception_named "InsufficientFundsError")
  else ret None.

Arguments _match : simpl never.
Arguments rest_on : simpl never.
Arguments execute : simpl never.

(** [crossed]: the two best prices are read, the bid side first. *)
Definition crossed : M bool :=
  b <- get_book ;;
  best_bid <- lift (Side.best (bids b)) ;;
  best_ask <- lift (Side.best (asks b)) ;;
  if best_ask <=? best_bid then ret true else ret false.

(** ** Vocabulary of the statements *)

Definition opposite (r : side_ref) : side_ref :=
  match r with Bids => Asks | Asks => Bids end.

Definition tag (r : side_ref) : string :=
  match r with Bids => "BID" | Asks => "ASK" end.

(** The two sides carry the direction tags [__init__] gives them. *)
Definition tagged (b : Book) : Prop :=
  Side.stype (bids b) = "BID" ∧ Side.stype (asks b) = "ASK".

(** The admission check of [add] for an order resting on [own]: notional
    against balance for a BID, quantity against position for an ASK. *)
Definition sufficient (own : side_ref) (o : Order) (p : Participant) : bool :=
  match own with
  | Bids => price o * qty o <=? balance p
  | Asks => qty o <=? volume p
  end.

(** The order at [l] is one for the side [own] and passes the admission
    check. *)
Definition admitted (w : World) (l : loc) (own : side_ref) : Prop :=
  otype (heap w l) = tag own ∧
  ∃ p, participants (book w) !! owner (heap w l) = Some p ∧
       sufficient own (heap w l) p = true.

(** The limit [p] of an order for the side [own] is at or better than the
    best price [top] of the opposing side. *)
Definition compatible (own : side_ref) (p top : Z) : bool :=
  match own with
  | Bids => top <=? p
  | Asks => p <=? top
  end.

(** No order of the side bears the identifier [i]. *)
Definition absent (h : store) (i : Z) (s : Side.t) : Prop :=
  Forall (fun l => oid (h l) ≠ i) (Side.resting s).

(** No level of the side is empty. *)
Definition inhabited_levels (s : Side.t) : Prop :=
  Forall (fun lv => snd lv ≠ []) (Side.levels s).

(** ** States, transitions and scenarios of the statements *)

(** A book whose only parameter is "lot". *)
Definition book_lot : Book :=
  Book_init "X" [] (Some (<["lot" := 100]> ∅)).

Definition world_lot : World := mkWorld (fun _ => mkOrder 0 "" "" "" 1 1) book_lot.

(** The state [cancel] leaves. *)
Definition cancelled (i : Z) (w : World) : World :=
  mkWorld (heap w)
    (mkBook (name (book w)) (participants_ (book w)) (params_ (book w))
       (Side.remove (heap w) (bids (book w)) i)
       (Side.remove (heap w) (asks (book w)) i)
       (LTP (book w))).

(** The identifier [add] computes when an order comes to rest. *)
Definition rest_id (w : World) : Z :=
  Side.volume (heap w) (bids (book w)) + Side.volume (heap w) (asks (book w)) + 1.

(** The state in which [add] leaves an order it rests on [own]. *)
Definition rested (own : side_ref) (l : loc) (w : World) : World :=
  let h := <[l := set_oid (rest_id w) (heap w l)]> (heap w) in
  mkWorld h (with_side own (Side.put h (side_of own (book w)) l) (book w)).

(** The participant that owns the order at [l] is in the ledger. *)
Definition registered (w : World) (l : loc) : Prop :=
  is_Some (participants (book w) !! owner (heap w l)).

(** Full execution of the order at [o], an order of the side [r]: the
    orders bearing its identifier leave that side and LTP takes its price. *)
Definition executed_full (r : side_ref) (o : loc) (w : World) : World :=
  mkWorld (heap w)
    (with_LTP (price (heap w o))
       (with_side r (Side.remove (heap w) (side_of r (book w)) (oid (heap w o)))
          (book w))).

(** Partial execution of the order at [o] by the amount [a]: its quantity
    goes down by [a] and LTP takes its price. *)
Definition executed_partial (o : loc) (a : Z) (w : World) : World :=
  mkWorld (<[o := sub_qty a (heap w o)]> (heap w))
    (with_LTP (price (heap w o)) (book w)).

(** The sweep of the matching step as the specification words it, over the
    opposing side's resting orders in priority order: the oldest order of
    the best level first.  An incoming order (at [l], for the side [own])
    smaller than the resting one is executed in full and the resting one by
    that amount; an equal one is executed in full with the resting one;
    a larger one is executed by the resting order's amount, the resting
    order is executed in full, and the sweep goes on with the next resting
    order.  The flag tells whether the incoming order was used up. *)
Fixpoint sweep (own : side_ref) (l : loc) (queue : list loc) (w : World)
    : World * bool :=
  match queue with
  | [] => (w, false)
  | o :: queue' =>
      if qty (heap w l) <? qty (heap w o) then
        (executed_partial o (qty (heap w l)) (executed_full own l w), true)
      else if qty (heap w l) =? qty (heap w o) then
        (executed_full (opposite own) o (executed_full own l w), true)
      else
        sweep own l queue'
          (executed_full (opposite own) o (executed_partial l (qty (heap w o)) w))
  end.

(** A level with the queue [queue] in front of the levels [rest], or [rest]
    alone when the queue is empty. *)
Definition cons_level (p : Z) (queue : list loc) (rest : list (Z * list loc))
    : list (Z * list loc) :=
  match queue with
  | [] => rest
  | _ :: _ => (p, queue) :: rest
  end.

(** What the sweep relies on, for the levels [lvls] of the side opposite to
    [own] and an incoming order at [l]: no level is empty, prices and
    identifiers are not repeated, every resting order is an order of that
    side with a positive quantity and a registered owner, and the incoming
    order is one for the side [own], with a positive quantity and a
    registered owner. *)
Record orderly (own : side_ref) (l : loc) (ps : gmap string Participant)
    (h : store) (lvls : list (Z * list loc)) : Prop := mkOrderly {
  levels_inhabited : Forall (fun lv => snd lv ≠ []) lvls;
  prices_distinct : NoDup (map fst lvls);
  oids_distinct : NoDup (map (fun o => oid (h o)) (concat (map snd lvls)));
  resting_sound :
    Forall (fun o => otype (h o) = tag (opposite own) ∧ 0 < qty (h o) ∧
                     is_Some (ps !! owner (h o)))
      (concat (map snd lvls));
  incoming_sound :
    otype (h l) = tag own ∧ 0 < qty (h l) ∧ is_Some (ps !! owner (h l))
}.

(** The book's sides are tagged and the side opposite to [own], with the
    order at [l] incoming, is [orderly]. *)
Definition sweepable (own : side_ref) (l : loc) (w : World) : Prop :=
  tagged (book w) ∧
  orderly own l (participants (book w)) (heap w)
    (Side.levels (side_of (opposite own) (book w))).

(** A computation leaves the book's participant dictionary as it found it. *)
Definition keeps_ledger {A : Type} (m : M A) : Prop :=
  ∀ w, participants_ (book (m w).1) = participants_ (book w).

(** A computation puts no order on either side: whatever rests after it
    rested before it. *)
Definition only_removes {A : Type} (m : M A) : Prop :=
  ∀ w r x,
    x ∈ Side.resting (side_of r (book (m w).1)) →
    x ∈ Side.resting (side_of r (book w)).

(** The full-match scenario of the specification: a book with the seller S
    (position 10) and the buyer B (balance 50.00), an ASK of S for 10 units
    at 5.00 (object 0) and a BID of B for 10 units at 5.00 (object 1). *)
Definition seller : Participant := mkParticipant "S" 0 10.
Definition buyer : Participant := mkParticipant "B" 5000 0.

Definition full_match_heap : store :=
  fun l =>
    match l with
    | O => mkOrder 0 "S" "ASK" "X" 500 10
    | _ => mkOrder 0 "B" "BID" "X" 500 10
    end.

Definition full_match_start : World :=
  mkWorld full_match_heap (Book_init "X" [seller; buyer] None).

(** The ASK rests, as the resting handler of [add] places it. *)
Definition ask_resting : World := rested Asks 0%nat full_match_start.

(** A book with two resting levels of asks: 4 and 3 units at 5.00 (objects 0
    and 1, of S), 6 units at 5.10 (object 2, of T); and B's bids: 9 units at
    5.10 (object 3), 20 units at 5.10 (object 4), 2 units at 4.90 (object
    5) and, beyond B's means, 1000 units at 5.10 (any other object). *)
Definition sweep_heap : store :=
  fun l =>
    match l with
    | 0%nat => mkOrder 1 "S" "ASK" "X" 500 4
    | 1%nat => mkOrder 5 "S" "ASK" "X" 500 3
    | 2%nat => mkOrder 8 "T" "ASK" "X" 510 6
    | 3%nat => mkOrder 0 "B" "BID" "X" 510 9
    | 4%nat => mkOrder 0 "B" "BID" "X" 510 20
    | 5%nat => mkOrder 0 "B" "BID" "X" 490 2
    | _ => mkOrder 0 "B" "BID" "X" 510 1000
    end.

Definition sweep_book : Book :=
  mkBook "X"
    (participants_
       (Book_init "X"
          [mkParticipant "S" 0 20; mkParticipant "T" 0 6; mkParticipant "B" 20000 0]
          None))
    ∅
    (Side.mk "BID" [])
    (Side.mk "ASK" [(500, [0%nat; 1%nat]); (510, [2%nat])])
    0.

Definition sweep_world : World := mkWorld sweep_heap sweep_book.

(** The levels of the side are in strict priority order, best price
    first. *)
Definition best_first (s : Side.t) : Prop :=
  StronglySorted (fun p q => Side.outranks (Side.stype s) p q = true) (Side.prices s).

(** ** Vocabulary of the further properties *)

(** A computation leaves the value [f] reads off the book as it found it. *)
Definition preserves {X A : Type} (f : Book → X) (m : M A) : Prop :=
  ∀ w, f (book (m w).1) = f (book w).

(** What no statement of [add] or [cancel] assigns: the name of the book,
    its parameter map and the direction tags of its two sides. *)
Definition fixtures (b : Book) : string * gmap string Z * string * string :=
  (name b, params_ b, Side.stype (bids b), Side.stype (asks b)).

(** The two exceptions [add] handles by resting the order. *)
Definition is_signal (e : exn) : Prop :=
  e = InsufficientVolumeError ∨ e = PriceOutOfRangeError.

(** A computation raises neither of the two resting signals. *)
Definition quiet {A : Type} (m : M A) : Prop :=
  ∀ w w' e, m w = (w', Raise e) → ¬ is_signal e.

(** Closes [quiet m] for a step [m] that only reads or writes the state. *)
Ltac quiet_step :=
  let H := fresh in
  intros ? ? ? H;
  unfold participants_view, bind, get_book, get_heap, read, ret, diverge,
    modify_order, modify_book, side_remove, side_put in H;
  discriminate H.

(** The last participant of the list registered under the name [n]. *)
Definition last_named (n : string) (ps : list Participant) : option Participant :=
  last (filter (fun p => pname p = n) ps).

(** The book of [sweep_world] with B's bid for 9 units limited to 5.00
    (object 3): the asks at 5.10 are beyond its limit. *)
Definition through_heap : store :=
  fun l =>
    match l with
    | 3%nat => mkOrder 0 "B" "BID" "X" 500 9
    | _ => sweep_heap l
    end.

Definition through_world : World := mkWorld through_heap sweep_book.








(** The resting order at which an incoming quantity [n] is used up when the
    orders of [queue] are taken in turn: the first one whose quantity
    covers what is left of [n] after the orders before it. *)
Fixpoint filled_at (h : store) (n : Z) (queue : list loc) : option loc :=
  match queue with
  | [] => None
  | o :: queue' =>
      if n <=? qty (h o) then Some o else filled_at h (n - qty (h o)) queue'
  end.

(** ** Parameters and registration *)

Lemma assoc_unbound :
  assoc "NoSuchParameterError" module_globals = @None exn.
Proof. reflexivity. Qed.

Lemma param_unknown_raises (w : World) (nm : string) (v : Z) :
  params_ (book w) !! nm = None →
  get_param nm w = (w, Raise (NameError "NoSuchParameterError")) ∧
  set_param nm v w = (w, Raise (NameError "NoSuchParameterError")).
Proof.
  intros Hnone. unfold get_param, set_param, bind, get_book. cbn.
  rewrite Hnone. split; reflexivity.
Qed.

(** C8: on a name the parameter map does not hold, [get_param] and
    [set_param] do not fail with NoSuchParameter: [book.py] never imports
    that class, and the [raise] statement itself fails with a NameError.
    Shown on a book whose only parameter is "lot", asked for "tick". *)
Theorem param_unknown_name_error :
  params_ (book world_lot) !! "tick" = None ∧
  get_param "tick" world_lot = (world_lot, Raise (NameError "NoSuchParameterError")) ∧
  set_param "tick" 5 world_lot = (world_lot, Raise (NameError "NoSuchParameterError")) ∧
  get_param "tick" world_lot ≠ (world_lot, Raise NoSuchParameterError) ∧
  set_param "tick" 5 world_lot ≠ (world_lot, Raise NoSuchParameterError).
Proof.
  assert (Hnone : params_ (book world_lot) !! "tick" = None) by reflexivity.
  destruct (param_unknown_raises world_lot "tick" 5 Hnone) as [Hg Hs].
  split; [exact Hnone|]. rewrite Hg, Hs.
  repeat split; discriminate.
Qed.

(** C10: registering a participant under a name the book does not hold
    completes without error and leaves the book, its participant map
    included, as it was: the entry is written into the copy the
    [participants] property returns.  Under a name the book holds, the
    call raises ParticipantAlreadyExists. *)
Theorem add_participant_writes_to_copy (w : World) (p : Participant) :
  add_participant p w =
    (w, match participants_ (book w) !! pname p with
        | None => Return tt
        | Some _ => Raise ParticipantAlreadyExistsError
        end).
Proof.
  unfold add_participant, bind, get_book. cbn.
  destruct (participants_ (book w) !! pname p); reflexivity.
Qed.

(** ** The sides: queues, insertion and removal *)

Lemma others_idem (h : store) (i : Z) (queue : list loc) :
  Side.others h i (Side.others h i queue) = Side.others h i queue.
Proof.
  unfold Side.others. induction queue as [|l queue IH]; [reflexivity|].
  destruct (decide (oid (h l) ≠ i)) as [Hk|Hk].
  - rewrite (filter_cons_True _ l queue Hk).
    rewrite (filter_cons_True _ l _ Hk). by rewrite IH.
  - by rewrite (filter_cons_False _ l queue Hk).
Qed.

Lemma others_all (h : store) (i : Z) (queue : list loc) :
  Forall (fun l => oid (h l) ≠ i) queue → Side.others h i queue = queue.
Proof.
  unfold Side.others. induction 1 as [|l queue Hl _ IH]; [reflexivity|].
  rewrite (filter_cons_True _ l queue Hl). by rewrite IH.
Qed.

Lemma others_app (h : store) (i : Z) (q1 q2 : list loc) :
  Side.others h i (q1 ++ q2) = Side.others h i q1 ++ Side.others h i q2.
Proof. unfold Side.others. apply filter_app. Qed.

Lemma resting_remove_levels (h : store) (i : Z) (lvls : list (Z * list loc)) :
  concat (map snd (Side.remove_levels h i lvls)) =
  Side.others h i (concat (map snd lvls)).
Proof.
  induction lvls as [|[p queue] lvls IH]; [reflexivity|].
  cbn [map concat snd]. rewrite others_app, <- IH. cbn [Side.remove_levels].
  destruct (Side.others h i queue); reflexivity.
Qed.

Lemma resting_remove (h : store) (s : Side.t) (i : Z) :
  Side.resting (Side.remove h s i) = Side.others h i (Side.resting s).
Proof. apply resting_remove_levels. Qed.

Lemma remove_levels_idem (h : store) (i : Z) (lvls : list (Z * list loc)) :
  Side.remove_levels h i (Side.remove_levels h i lvls) = Side.remove_levels h i lvls.
Proof.
  induction lvls as [|[p queue] lvls IH]; [reflexivity|].
  cbn [Side.remove_levels].
  destruct (Side.others h i queue) as [|o queue'] eqn:Hq; [exact IH|].
  cbn [Side.remove_levels]. rewrite <- Hq, others_idem, Hq. by rewrite IH.
Qed.

Lemma remove_idem (h : store) (s : Side.t) (i : Z) :
  Side.remove h (Side.remove h s i) i = Side.remove h s i.
Proof. unfold Side.remove. cbn. by rewrite remove_levels_idem. Qed.

Lemma remove_levels_absent (h : store) (i : Z) (lvls : list (Z * list loc)) :
  Forall (fun lv => snd lv ≠ []) lvls →
  Forall (fun l => oid (h l) ≠ i) (concat (map snd lvls)) →
  Side.remove_levels h i lvls = lvls.
Proof.
  induction lvls as [|[p queue] lvls IH]; [reflexivity|].
  cbn [Side.remove_levels map concat snd]. intros Hne Habs.
  apply Forall_cons in Hne as [Hq Hne]. cbn [snd] in Hq.
  apply Forall_app in Habs as [Hqa Habs].
  rewrite (others_all _ _ _ Hqa), (IH Hne Habs).
  destruct queue; [by destruct Hq | reflexivity].
Qed.

Lemma remove_absent (h : store) (s : Side.t) (i : Z) :
  inhabited_levels s → absent h i s → Side.remove h s i = s.
Proof.
  intros Hne Habs. destruct s as [st lvls]. unfold Side.remove. cbn.
  f_equal. by apply remove_levels_absent.
Qed.

Lemma find_level_insert (st : string) (p : Z) (l : loc) (lvls : list (Z * list loc)) :
  ∃ queue, Side.find_level p (Side.insert_level st p l lvls) = Some (queue ++ [l]).
Proof.
  induction lvls as [|[q queue] lvls IH]; cbn.
  - exists []. by rewrite Z.eqb_refl.
  - destruct (p =? q) eqn:Hpq.
    + exists queue. cbn. by rewrite Hpq.
    + destruct (Side.outranks st p q).
      * exists []. cbn. by rewrite Z.eqb_refl.
      * cbn. by rewrite Hpq.
Qed.

Lemma get_put (h : store) (s : Side.t) (l : loc) :
  ∃ queue, Side.get (Side.put h s l) (price (h l)) = inr (queue ++ [l]).
Proof.
  unfold Side.get, Side.put. cbn.
  destruct (find_level_insert (Side.stype s) (price (h l)) l (Side.levels s))
    as [queue ->].
  by exists queue.
Qed.

(** ** Cancellation *)

Lemma cancel_eq (i : Z) (w : World) : cancel i w = (cancelled i w, Return tt).
Proof. reflexivity. Qed.

(** C9: [cancel] never raises; it removes from both sides the orders that
    bear the identifier and no other; it leaves every balance and position,
    and every order object, as they were; a second [cancel] of the same
    identifier changes nothing; and so does a first one when no order of
    the book bears the identifier. *)
Theorem cancel_removes_and_never_settles (w : World) (i : Z) :
  ∃ w', cancel i w = (w', Return tt)
    ∧ participants (book w') = participants (book w)
    ∧ heap w' = heap w
    ∧ LTP (book w') = LTP (book w)
    ∧ (∀ r l, l ∈ Side.resting (side_of r (book w')) ↔
              l ∈ Side.resting (side_of r (book w)) ∧ oid (heap w l) ≠ i)
    ∧ cancel i w' = (w', Return tt)
    ∧ (inhabited_levels (bids (book w)) → inhabited_levels (asks (book w)) →
       absent (heap w) i (bids (book w)) → absent (heap w) i (asks (book w)) →
       w' = w).
Proof.
  exists (cancelled i w). split; [apply cancel_eq|].
  split; [reflexivity|]. split; [reflexivity|]. split; [reflexivity|].
  split; [|split].
  - intros r l.
    assert (Hr : Side.resting (side_of r (book (cancelled i w))) =
                 Side.others (heap w) i (Side.resting (side_of r (book w))))
      by (destruct r; apply resting_remove).
    rewrite Hr. unfold Side.others. rewrite list_elem_of_filter. tauto.
  - rewrite cancel_eq. f_equal. unfold cancelled. cbn [heap book bids asks name participants_ params_ LTP].
    by rewrite !remove_idem.
  - intros Hb Ha Hib Hia. unfold cancelled.
    rewrite (remove_absent _ _ _ Hb Hib), (remove_absent _ _ _ Ha Hia).
    by destruct w as [h []].
Qed.

(** ** Admission: the funds gate and the resting paths *)

Lemma tag_eqb_own (own : side_ref) :
  String.eqb (tag own) "BID" = match own with Bids => true | Asks => false end ∧
  String.eqb (tag own) "ASK" = match own with Bids => false | Asks => true end.
Proof. by destruct own. Qed.

Lemma stype_side_of (b : Book) (r : side_ref) :
  tagged b → Side.stype (side_of r b) = tag r.
Proof. intros [Hb Ha]. by destruct r. Qed.

(** C3: a BID whose notional exceeds the submitter's balance, and an ASK
    whose quantity exceeds the submitter's position, is refused by [add]
    with InsufficientFunds, and the refusal leaves the whole state as it
    was: both sides, every order object, the ledger and LTP. *)
Theorem funds_gate_rejects (fuel : nat) (w : World) (l : loc) (p : Participant) :
  participants (book w) !! owner (heap w l) = Some p →
  (otype (heap w l) = "BID" ∧ balance p < price (heap w l) * qty (heap w l)) ∨
  (otype (heap w l) = "ASK" ∧ volume p < qty (heap w l)) →
  add fuel l w = (w, Raise InsufficientFundsError).
Proof.
  intros Hp Hgate. unfold add, bind, read, participants_view, get_book. cbn.
  destruct Hgate as [[Ht Hlt]|[Ht Hlt]]; rewrite Ht; cbn;
    unfold getitem; rewrite Hp; cbn.
  - assert ((price (heap w l) * qty (heap w l) <=? balance p) = false) as ->
      by (apply Z.leb_gt; lia).
    reflexivity.
  - assert ((qty (heap w l) <=? volume p) = false) as -> by (apply Z.leb_gt; lia).
    reflexivity.
Qed.

Lemma rest_on_eq (own : side_ref) (l : loc) (w : World) :
  rest_on own l w = (rested own l w, Return (Some (rest_id w))).
Proof. reflexivity. Qed.

Lemma _match_price_out_of_range (fuel : nat) (own : side_ref) (l : loc)
    (w : World) (top : Z) :
  tagged (book w) →
  Side.best (side_of (opposite own) (book w)) = inr top →
  compatible own (price (heap w l)) top = false →
  _match fuel (opposite own) l w = (w, Raise PriceOutOfRangeError).
Proof.
  intros Htag Hbest Hc. unfold _match, bind, read, get_book. cbn.
  rewrite (stype_side_of _ _ Htag), Hbest.
  destruct own; cbn in *; rewrite Hc; reflexivity.
Qed.

Lemma _match_insufficient_volume (fuel : nat) (own : side_ref) (l : loc)
    (w : World) (top : Z) :
  tagged (book w) →
  Side.best (side_of (opposite own) (book w)) = inr top →
  compatible own (price (heap w l)) top = true →
  Side.volume (heap w) (side_of (opposite own) (book w)) < qty (heap w l) →
  _match fuel (opposite own) l w = (w, Raise InsufficientVolumeError).
Proof.
  intros Htag Hbest Hc Hvol. unfold _match, bind, read, get_book, get_heap. cbn.
  rewrite (stype_side_of _ _ Htag), Hbest.
  apply Z.leb_gt in Hvol.
  destruct own; cbn in *; rewrite Hc; cbn; rewrite Hvol; reflexivity.
Qed.

(** [add] on an admitted order whose match attempt raises one of the two
    resting signals without touching the state. *)
Lemma add_after_signal (fuel : nat) (own : side_ref) (l : loc) (w : World) (e : exn) :
  admitted w l own →
  _match fuel (opposite own) l w = (w, Raise e) →
  e = InsufficientVolumeError ∨ e = PriceOutOfRangeError →
  add fuel l w = (rested own l w, Return (Some (rest_id w))).
Proof.
  intros [Ht (p & Hp & Hs)] Hm He.
  unfold add, bind, read, participants_view, get_book. cbn.
  rewrite Ht. destruct (tag_eqb_own own) as [-> ->].
  destruct own; cbn in *; unfold getitem; rewrite Hp; cbn; rewrite Hs;
    unfold try_except, bind; rewrite Hm;
    destruct He as [-> | ->]; cbn; apply rest_on_eq.
Qed.

Lemma rested_get (own : side_ref) (l : loc) (w : World) :
  ∃ queue, Side.get (side_of own (book (rested own l w))) (price (heap w l))
           = inr (queue ++ [l]).
Proof.
  pose (h := <[l := set_oid (rest_id w) (heap w l)]> (heap w)).
  assert (Hp : price (heap w l) = price (h l))
    by (unfold h; rewrite fn_lookup_insert; reflexivity).
  rewrite Hp.
  destruct (get_put h (side_of own (book w)) l) as [queue Hq].
  exists queue. rewrite <- Hq. by destruct own.
Qed.

Lemma rested_heap_at (own : side_ref) (l : loc) (w : World) :
  heap (rested own l w) l = set_oid (rest_id w) (heap w l).
Proof. unfold rested. cbn. apply fn_lookup_insert. Qed.

Lemma rested_heap_other (own : side_ref) (l l' : loc) (w : World) :
  l' ≠ l → heap (rested own l w) l' = heap w l'.
Proof. intros Hne. unfold rested. cbn. by apply fn_lookup_insert_ne. Qed.

(** Resting for want of volume, against an opposing side that holds at
    least one order: an admitted order whose limit is compatible with the
    opposing side's best price and whose quantity exceeds the opposing
    side's resting volume does not fail: [add] returns an identifier, which
    is the one now stored on the order, and the order is found on its own
    side at its own price, at the end of that level's queue, with the
    quantity and the price it came with. *)
Theorem insufficient_volume_rests (fuel : nat) (own : side_ref) (l : loc)
    (w : World) (top : Z) :
  tagged (book w) →
  admitted w l own →
  Side.best (side_of (opposite own) (book w)) = inr top →
  compatible own (price (heap w l)) top = true →
  Side.volume (heap w) (side_of (opposite own) (book w)) < qty (heap w l) →
  ∃ w' i, add fuel l w = (w', Return (Some i))
    ∧ oid (heap w' l) = i
    ∧ (∃ queue, Side.get (side_of own (book w')) (price (heap w l))
                = inr (queue ++ [l]))
    ∧ qty (heap w' l) = qty (heap w l)
    ∧ price (heap w' l) = price (heap w l).
Proof.
  intros Htag Hadm Hbest Hc Hvol.
  exists (rested own l w), (rest_id w). split.
  - eapply add_after_signal; [done| |by left].
    by eapply _match_insufficient_volume.
  - rewrite rested_heap_at. repeat split. apply rested_get.
Qed.

(** C5: an admitted order whose limit is not at or better than the
    opposing side's best price (a BID below the best ask, an ASK above the
    best bid) comes to rest on its own side at its own price; nothing is
    executed: the opposing side, every resting order, every quantity and the
    ledger are as before, and LTP is unchanged. *)
Theorem price_out_of_range_rests (fuel : nat) (own : side_ref) (l : loc)
    (w : World) (top : Z) :
  tagged (book w) →
  admitted w l own →
  Side.best (side_of (opposite own) (book w)) = inr top →
  match own with
  | Bids => price (heap w l) < top
  | Asks => top < price (heap w l)
  end →
  ∃ w' i, add fuel l w = (w', Return (Some i))
    ∧ side_of own (book w') = Side.put (heap w') (side_of own (book w)) l
    ∧ (∃ queue, Side.get (side_of own (book w')) (price (heap w l))
                = inr (queue ++ [l]))
    ∧ price (heap w' l) = price (heap w l)
    ∧ qty (heap w' l) = qty (heap w l)
    ∧ (∀ l', l' ≠ l → heap w' l' = heap w l')
    ∧ side_of (opposite own) (book w') = side_of (opposite own) (book w)
    ∧ participants (book w') = participants (book w)
    ∧ LTP (book w') = LTP (book w).
Proof.
  intros Htag Hadm Hbest Hlt.
  assert (Hc : compatible own (price (heap w l)) top = false)
    by (destruct own; cbn; apply Z.leb_gt; lia).
  exists (rested own l w), (rest_id w). split.
  - eapply add_after_signal; [done| |by right].
    by eapply _match_price_out_of_range.
  - rewrite rested_heap_at.
    split; [by destruct own|]. split; [apply rested_get|].
    split; [reflexivity|]. split; [reflexivity|].
    split; [intros l' Hne; by apply rested_heap_other|].
    by destruct own.
Qed.


(** ** Execution *)

Lemma settle_keeps_state (w : World) (k : string) (db dv : Z) :
  is_Some (participants (book w) !! k) →
  settle k db dv w = (w, Return tt).
Proof.
  intros [p Hp]. unfold settle, bind, participants_view, get_book,
    iadd_balance, iadd_volume, getitem. cbn.
  rewrite Hp. cbn. rewrite Hp. reflexivity.
Qed.

Lemma _payout_keeps_state (w : World) (r : side_ref) (l : loc) (amt : option Z) :
  tagged (book w) → registered w l →
  _payout r l amt w = (w, Return tt).
Proof.
  intros Htag Hreg. unfold _payout, bind, get_book, read. cbn.
  rewrite (stype_side_of _ _ Htag).
  destruct (tag_eqb_own r) as [-> ->].
  destruct r, (truthy amt); by apply settle_keeps_state.
Qed.

Lemma execute_full (w : World) (r : side_ref) (o : loc) (amt : option Z) :
  tagged (book w) → registered w o →
  otype (heap w o) = tag r → truthy amt = false →
  execute o amt w = (executed_full r o w, Return tt).
Proof.
  intros Htag Hreg Ht Hamt. unfold execute, bind at 1, read at 1.
  rewrite Hamt, Ht. destruct (tag_eqb_own r) as [-> ->].
  unfold bind.
  destruct r; rewrite (_payout_keeps_state _ _ _ _ Htag Hreg); reflexivity.
Qed.

Lemma execute_partial (w : World) (r : side_ref) (o : loc) (a : Z) :
  tagged (book w) → registered w o →
  otype (heap w o) = tag r → a ≠ 0 →
  execute o (Some a) w = (executed_partial o a w, Return tt).
Proof.
  intros Htag Hreg Ht Ha. unfold execute, bind at 1, read at 1.
  assert (Hamt : truthy (Some a) = true)
    by (cbn; apply negb_true_iff, Z.eqb_neq, Ha).
  rewrite Hamt, Ht. destruct (tag_eqb_own r) as [-> ->].
  unfold bind.
  destruct r; rewrite (_payout_keeps_state _ _ _ _ Htag Hreg);
    cbn; unfold executed_partial; rewrite fn_lookup_insert; reflexivity.
Qed.

(** ** The sweep *)

Lemma tag_opposite_ne (r : side_ref) : tag r ≠ tag (opposite r).
Proof. by destruct r. Qed.

Lemma orderly_incoming_not_resting own l ps h lvls :
  orderly own l ps h lvls → l ∉ concat (map snd lvls).
Proof.
  intros [_ _ _ Hrest [Ht _]] Hin.
  rewrite Forall_forall in Hrest. destruct (Hrest _ Hin) as [Ht' _].
  apply (tag_opposite_ne own). congruence.
Qed.

Lemma remove_levels_head (h : store) (p : Z) (o : loc) (queue : list loc)
    (rest : list (Z * list loc)) :
  NoDup (map (fun x => oid (h x)) (o :: queue ++ concat (map snd rest))) →
  Forall (fun lv => snd lv ≠ []) rest →
  Side.remove_levels h (oid (h o)) ((p, o :: queue) :: rest) = cons_level p queue rest.
Proof.
  intros Hnd Hne. cbn [map] in Hnd. apply NoDup_cons in Hnd as [Hnotin _].
  assert (Hall : Forall (fun x => oid (h x) ≠ oid (h o))
                   (queue ++ concat (map snd rest))).
  { apply Forall_forall. intros x Hx Heq. apply Hnotin.
    rewrite <- Heq. apply list_elem_of_fmap. by exists x. }
  apply Forall_app in Hall as [Hq Hr].
  cbn [Side.remove_levels]. unfold Side.others at 1.
  rewrite filter_cons_False by (intros Hk; by apply Hk).
  fold (Side.others h (oid (h o)) queue).
  rewrite (others_all _ _ _ Hq), (remove_levels_absent _ _ _ Hne Hr).
  by destruct queue.
Qed.

(** The fields of the order objects after a partial execution at [l]. *)
Lemma partial_fields (h : store) (l : loc) (a : Z) (x : loc) :
  let h' := <[l := sub_qty a (h l)]> h in
  oid (h' x) = oid (h x) ∧ otype (h' x) = otype (h x) ∧
  owner (h' x) = owner (h x) ∧ price (h' x) = price (h x) ∧
  (x ≠ l → qty (h' x) = qty (h x)) ∧ qty (h' l) = qty (h l) - a.
Proof.
  cbn. rewrite fn_lookup_insert.
  destruct (decide (l = x)) as [->|Hne].
  - rewrite fn_lookup_insert. by repeat split.
  - rewrite fn_lookup_insert_ne by done. by repeat split.
Qed.

(** One step of the sweep past a smaller resting order keeps the side
    orderly, without that order. *)
Lemma orderly_step own l ps h p o queue rest :
  orderly own l ps h ((p, o :: queue) :: rest) →
  qty (h o) < qty (h l) →
  orderly own l ps (<[l := sub_qty (qty (h o)) (h l)]> h) (cons_level p queue rest).
Proof.
  intros Hord Hlt.
  pose proof (orderly_incoming_not_resting _ _ _ _ _ Hord) as Hl.
  destruct Hord as [Hne Hpr Hoid Hrest (Hti & Hqi & Hri)].
  set (h' := <[l := sub_qty (qty (h o)) (h l)]> h).
  assert (Hsl : sublist (concat (map snd (cons_level p queue rest)))
                  (concat (map snd ((p, o :: queue) :: rest)))).
  { destruct queue; cbn.
    - by apply sublist_cons.
    - apply sublist_cons. reflexivity. }
  pose proof (sublist_subseteq _ _ Hsl) as Hsub.
  assert (Hoids : map (fun x => oid (h' x)) (concat (map snd (cons_level p queue rest)))
                = map (fun x => oid (h x)) (concat (map snd (cons_level p queue rest)))).
  { apply map_ext. intros x. apply (partial_fields h l (qty (h o)) x). }
  split.
  - apply Forall_cons in Hne as [Hq Hne]. destruct queue; cbn; [done|].
    by apply Forall_cons.
  - cbn in Hpr. apply NoDup_cons in Hpr as [Hp Hpr]. destruct queue; cbn; [done|].
    by apply NoDup_cons.
  - rewrite Hoids. eapply sublist_NoDup; [exact Hoid|].
    exact (fmap_sublist (fun x => oid (h x)) _ _ Hsl).
  - apply Forall_forall. intros x Hx.
    rewrite Forall_forall in Hrest. destruct (Hrest x (Hsub x Hx)) as (H1 & H2 & H3).
    destruct (partial_fields h l (qty (h o)) x) as (_ & Ht & Ho & _ & Hq & _).
    fold h' in Ht, Ho, Hq.
    rewrite Ht, Ho, Hq; [done|]. intros ->. apply Hl, Hsub, Hx.
  - destruct (partial_fields h l (qty (h o)) l) as (_ & Ht & Ho & _ & _ & Hq).
    fold h' in Ht, Ho, Hq. rewrite Ht, Ho, Hq. repeat split; [done|lia|done].
Qed.

Lemma bind_return {A B : Type} (m : M A) (k : A → M B) (w w' : World) (a : A) :
  m w = (w', Return a) → bind m k w = k a w'.
Proof. intros Hm. unfold bind. by rewrite Hm. Qed.

Lemma bind_read {B : Type} (x : loc) (k : Order → M B) (w : World) :
  bind (read x) k w = k (heap w x) w.
Proof. reflexivity. Qed.

Lemma side_of_executed_full (r r' : side_ref) (o : loc) (w : World) :
  side_of r' (book (executed_full r o w)) =
  if decide (r' = r) then Side.remove (heap w) (side_of r (book w)) (oid (heap w o))
  else side_of r' (book w).
Proof. by destruct r, r'. Qed.

Lemma tagged_executed_full (r : side_ref) (o : loc) (w : World) :
  tagged (book w) → tagged (book (executed_full r o w)).
Proof. intros [Hb Ha]. by destruct r. Qed.

Lemma sweepable_registered own l w x :
  sweepable own l w →
  x = l ∨ x ∈ Side.resting (side_of (opposite own) (book w)) →
  registered w x ∧ 0 < qty (heap w x) ∧
  otype (heap w x) = (if decide (x = l) then tag own else tag (opposite own)).
Proof.
  intros [_ Hord] Hx.
  pose proof (orderly_incoming_not_resting _ _ _ _ _ Hord) as Hl.
  destruct Hord as [_ _ _ Hrest (Ht & Hq & Hr)].
  destruct Hx as [->|Hx].
  - rewrite decide_True by done. done.
  - rewrite Forall_forall in Hrest. destruct (Hrest _ Hx) as (Ht' & Hq' & Hr').
    rewrite decide_False; [done|]. intros ->. by apply Hl.
Qed.

(** The step of the sweep past a smaller resting order, on the state. *)
Lemma sweepable_step own l w p o queue rest :
  sweepable own l w →
  Side.levels (side_of (opposite own) (book w)) = (p, o :: queue) :: rest →
  qty (heap w o) < qty (heap w l) →
  let w2 := executed_full (opposite own) o
              (executed_partial l (qty (heap w o)) w) in
  sweepable own l w2 ∧
  Side.levels (side_of (opposite own) (book w2)) = cons_level p queue rest.
Proof.
  intros [Htag Hord] Hlv Hlt. rewrite Hlv in Hord. cbn zeta.
  set (h' := <[l := sub_qty (qty (heap w o)) (heap w l)]> (heap w)).
  assert (Hlv2 : Side.levels (side_of (opposite own)
                   (book (executed_full (opposite own) o
                            (executed_partial l (qty (heap w o)) w))))
                 = cons_level p queue rest).
  { rewrite side_of_executed_full, decide_True by done.
    assert (Hs : side_of (opposite own) (book (executed_partial l (qty (heap w o)) w))
                 = side_of (opposite own) (book w)) by (by destruct own).
    rewrite Hs. cbn [Side.remove Side.levels]. rewrite Hlv.
    change (heap (executed_partial l (qty (heap w o)) w)) with h'.
    apply remove_levels_head.
    - destruct Hord as [_ _ Hoid _ _].
      erewrite map_ext; [exact Hoid|].
      intros x. apply (partial_fields (heap w) l (qty (heap w o)) x).
    - destruct Hord as [Hne _ _ _ _].
      exact (Forall_inv_tail Hne). }
  split; [|exact Hlv2]. split.
  - apply tagged_executed_full. by destruct Htag.
  - rewrite Hlv2.
    assert (Hps : participants (book (executed_full (opposite own) o
                    (executed_partial l (qty (heap w o)) w)))
                  = participants (book w)) by (by destruct own).
    rewrite Hps. by apply orderly_step.
Qed.

Lemma registered_executed_full (r : side_ref) (o : loc) (w : World) (x : loc) :
  registered (executed_full r o w) x ↔ registered w x.
Proof. by destruct r. Qed.

(** The loop over one level does what the sweep does over that level's
    queue; when the queue is used up without a match the level is gone. *)
Lemma for_level_sweep (own : side_ref) (l : loc) (queue : list loc) :
  ∀ (w : World) (p : Z) (rest : list (Z * list loc)),
  sweepable own l w →
  Side.levels (side_of (opposite own) (book w)) = cons_level p queue rest →
  for_level l queue w = ((sweep own l queue w).1, Return (sweep own l queue w).2) ∧
  ((sweep own l queue w).2 = false →
     sweepable own l (sweep own l queue w).1 ∧
     Side.levels (side_of (opposite own) (book (sweep own l queue w).1)) = rest).
Proof.
  induction queue as [|o queue IH]; intros w p rest Hsw Hlv.
  - cbn. done.
  - cbn [cons_level] in Hlv.
    assert (Hin : o ∈ Side.resting (side_of (opposite own) (book w))).
    { unfold Side.resting. rewrite Hlv. cbn. left. }
    destruct (sweepable_registered own l w l Hsw (or_introl eq_refl))
      as (Hrl & Hql & Htl).
    destruct (sweepable_registered own l w o Hsw (or_intror Hin))
      as (Hro & Hqo & Hto).
    rewrite decide_True in Htl by done.
    assert (Hol : o ≠ l).
    { intros ->. destruct Hsw as [_ Hord].
      by apply (orderly_incoming_not_resting _ _ _ _ _ Hord). }
    rewrite decide_False in Hto by done.
    pose proof (proj1 Hsw) as Htag.
    cbn [for_level sweep]. rewrite !bind_read.
    destruct (qty (heap w l) <? qty (heap w o)) eqn:Hlt;
      [|destruct (qty (heap w l) =? qty (heap w o)) eqn:Heq].
    + rewrite (bind_return _ _ _ _ _ (execute_full w own l None Htag Hrl Htl eq_refl)).
      rewrite bind_read.
      assert (Hh : heap (executed_full own l w) = heap w) by reflexivity.
      rewrite (bind_return _ _ _ _ _
                 (execute_partial (executed_full own l w) (opposite own) o
                    (qty (heap (executed_full own l w) l))
                    (tagged_executed_full _ _ _ Htag)
                    (proj2 (registered_executed_full _ _ _ _) Hro)
                    Hto ltac:(rewrite Hh; lia))).
      split; [reflexivity|]. cbn. discriminate.
    + rewrite (bind_return _ _ _ _ _ (execute_full w own l None Htag Hrl Htl eq_refl)).
      rewrite (bind_return _ _ _ _ _
                 (execute_full (executed_full own l w) (opposite own) o None
                    (tagged_executed_full _ _ _ Htag)
                    (proj2 (registered_executed_full _ _ _ _) Hro)
                    Hto eq_refl)).
      split; [reflexivity|]. cbn. discriminate.
    + apply Z.ltb_ge in Hlt. apply Z.eqb_neq in Heq.
      assert (Hgt : qty (heap w o) < qty (heap w l)) by lia.
      rewrite (bind_return _ _ _ _ _
                 (execute_partial w own l (qty (heap w o)) Htag Hrl Htl ltac:(lia))).
      destruct (sweepable_step own l w p o queue rest Hsw Hlv Hgt) as [Hsw2 Hlv2].
      assert (Hexec : execute o None (executed_partial l (qty (heap w o)) w) =
                (executed_full (opposite own) o
                   (executed_partial l (qty (heap w o)) w), Return tt)).
      { apply execute_full; [done| | |done].
        - unfold registered. cbn.
          rewrite fn_lookup_insert_ne by done. exact Hro.
        - cbn. rewrite fn_lookup_insert_ne by done. exact Hto. }
      rewrite (bind_return _ _ _ _ _ Hexec).
      exact (IH _ p rest Hsw2 Hlv2).
Qed.

Lemma sweep_app (own : side_ref) (l : loc) (q1 q2 : list loc) (w : World) :
  sweep own l (q1 ++ q2) w =
  if (sweep own l q1 w).2 then sweep own l q1 w
  else sweep own l q2 (sweep own l q1 w).1.
Proof.
  revert w. induction q1 as [|o q1 IH]; intros w; cbn [sweep app]; [reflexivity|].
  destruct (qty (heap w l) <? qty (heap w o)); [reflexivity|].
  destruct (qty (heap w l) =? qty (heap w o)); [reflexivity|].
  apply IH.
Qed.

Lemma find_level_None (p : Z) (lvls : list (Z * list loc)) :
  p ∉ map fst lvls → Side.find_level p lvls = None.
Proof.
  induction lvls as [|[q queue] lvls IH]; [reflexivity|].
  cbn. intros Hnotin. apply not_elem_of_cons in Hnotin as [Hne Hnotin].
  apply Z.eqb_neq in Hne. rewrite Hne. by apply IH.
Qed.

(** The loop at one price runs the sweep over that level's queue and leaves
    by the NoPrice signal when the level is used up. *)
Lemma while_not_matched_sweep (fuel : nat) (own : side_ref) (l : loc)
    (w : World) (p : Z) (queue : list loc) (rest : list (Z * list loc))
    (lvl : option (list loc)) :
  (2 ≤ fuel)%nat →
  sweepable own l w →
  Side.levels (side_of (opposite own) (book w)) = (p, queue) :: rest →
  while_not_matched fuel (opposite own) l p lvl w =
    ((sweep own l queue w).1, Return ((sweep own l queue w).2, Some queue)) ∧
  queue ≠ [] ∧
  ((sweep own l queue w).2 = false →
     sweepable own l (sweep own l queue w).1 ∧
     Side.levels (side_of (opposite own) (book (sweep own l queue w).1)) = rest).
Proof.
  intros Hfuel Hsw Hlv.
  assert (Hq : queue ≠ []).
  { destruct Hsw as [_ [Hne _ _ _ _]]. rewrite Hlv in Hne.
    exact (Forall_inv Hne). }
  assert (Hp : p ∉ map fst rest).
  { destruct Hsw as [_ [_ Hpr _ _ _]]. rewrite Hlv in Hpr. cbn in Hpr.
    by apply NoDup_cons in Hpr as [Hp _]. }
  assert (Hlv' : Side.levels (side_of (opposite own) (book w)) = cons_level p queue rest)
    by (destruct queue; [done | exact Hlv]).
  destruct (for_level_sweep own l queue w p rest Hsw Hlv') as [Hrun Hpost].
  split; [|split; [exact Hq | exact Hpost]].
  destruct fuel as [|[|fuel]]; [lia | lia |].
  cbn [while_not_matched]. unfold bind at 1, get_book at 1.
  unfold Side.get at 1. cbn [book]. rewrite Hlv. cbn [Side.find_level].
  rewrite Z.eqb_refl. rewrite (bind_return _ _ _ _ _ Hrun).
  destruct (sweep own l queue w).2 eqn:Hm; [reflexivity|].
  destruct (Hpost eq_refl) as [_ Hrest].
  unfold bind at 1, get_book at 1. unfold Side.get. rewrite Hrest.
  by rewrite (find_level_None _ _ Hp).
Qed.

(** The loop over the prices runs the sweep over the resting orders, level
    after level. *)
Lemma for_prices_sweep (fuel : nat) (own : side_ref) (l : loc)
    (lvls : list (Z * list loc)) :
  ∀ (w : World) (lvl : option (list loc)),
  (2 ≤ fuel)%nat →
  sweepable own l w →
  Side.levels (side_of (opposite own) (book w)) = lvls →
  for_prices fuel (opposite own) l (map fst lvls) lvl w =
    ((sweep own l (concat (map snd lvls)) w).1, Return tt).
Proof.
  induction lvls as [|[p queue] rest IH]; intros w lvl Hfuel Hsw Hlv; [reflexivity|].
  destruct (while_not_matched_sweep fuel own l w p queue rest lvl Hfuel Hsw Hlv)
    as (Hrun & Hq & Hpost).
  cbn [map fst snd concat for_prices].
  rewrite (bind_return _ _ _ _ _ Hrun), sweep_app. cbn [fst snd].
  destruct (sweep own l queue w).2 eqn:Hm; [reflexivity|].
  destruct (Hpost eq_refl) as [Hsw' Hlv'].
  destruct queue as [|o queue]; [done|]. cbn [List.length Nat.eqb].
  by apply IH.
Qed.

Lemma queue_volume_app (h : store) (q1 q2 : list loc) :
  Side.queue_volume h (q1 ++ q2) = Side.queue_volume h q1 + Side.queue_volume h q2.
Proof.
  unfold Side.queue_volume. induction q1 as [|o q1 IH]; [reflexivity|].
  cbn [app fold_right]. rewrite IH. lia.
Qed.

Lemma volume_resting (h : store) (s : Side.t) :
  Side.volume h s = Side.queue_volume h (Side.resting s).
Proof.
  unfold Side.volume, Side.resting.
  induction (Side.levels s) as [|[p queue] lvls IH]; [reflexivity|].
  cbn [fold_right map concat snd]. by rewrite IH, queue_volume_app.
Qed.

(** With enough resting volume the sweep ends with the incoming order used
    up. *)
Lemma sweep_matched (own : side_ref) (l : loc) (queue : list loc) :
  ∀ w : World,
  l ∉ queue →
  0 < qty (heap w l) ≤ Side.queue_volume (heap w) queue →
  (sweep own l queue w).2 = true.
Proof.
  induction queue as [|o queue IH]; intros w Hl Hvol.
  - cbn in Hvol. lia.
  - cbn [sweep].
    destruct (qty (heap w l) <? qty (heap w o)) eqn:Hlt; [reflexivity|].
    destruct (qty (heap w l) =? qty (heap w o)) eqn:Heq; [reflexivity|].
    apply Z.ltb_ge in Hlt. apply Z.eqb_neq in Heq.
    apply not_elem_of_cons in Hl as [Hlo Hl].
    apply IH; [exact Hl|].
    change (heap (executed_full (opposite own) o
                    (executed_partial l (qty (heap w o)) w)))
      with (<[l := sub_qty (qty (heap w o)) (heap w l)]> (heap w)).
    rewrite fn_lookup_insert. cbn [qty sub_qty].
    assert (Hsame : Side.queue_volume
                      (<[l := sub_qty (qty (heap w o)) (heap w l)]> (heap w)) queue
                    = Side.queue_volume (heap w) queue).
    { clear IH Hvol. induction queue as [|x queue IHq]; [reflexivity|].
      apply not_elem_of_cons in Hl as [Hlx Hl]. cbn.
      rewrite fn_lookup_insert_ne by done.
      unfold Side.queue_volume in IHq. by rewrite (IHq Hl). }
    rewrite Hsame.
    change (Side.queue_volume (heap w) (o :: queue))
      with (qty (heap w o) + Side.queue_volume (heap w) queue) in Hvol.
    lia.
Qed.

Lemma resting_executed_full (r r' : side_ref) (o : loc) (w : World) (x : loc) :
  x ∈ Side.resting (side_of r' (book (executed_full r o w))) →
  x ∈ Side.resting (side_of r' (book w)).
Proof.
  rewrite side_of_executed_full. destruct (decide (r' = r)) as [->|]; [|done].
  rewrite resting_remove. unfold Side.others. rewrite list_elem_of_filter. tauto.
Qed.

Lemma side_of_executed_partial (r : side_ref) (o : loc) (a : Z) (w : World) :
  side_of r (book (executed_partial o a w)) = side_of r (book w).
Proof. by destruct r. Qed.

(** The sweep puts no order on either side. *)
Lemma sweep_resting_subset (own : side_ref) (l : loc) (queue : list loc) :
  ∀ (w : World) (r : side_ref) (x : loc),
  x ∈ Side.resting (side_of r (book (sweep own l queue w).1)) →
  x ∈ Side.resting (side_of r (book w)).
Proof.
  induction queue as [|o queue IH]; intros w r x; [done|].
  cbn [sweep].
  destruct (qty (heap w l) <? qty (heap w o)); [|
    destruct (qty (heap w l) =? qty (heap w o))]; cbn [fst].
  - rewrite side_of_executed_partial. apply resting_executed_full.
  - intros Hx. by do 2 apply resting_executed_full in Hx.
  - intros Hx. apply IH, resting_executed_full in Hx.
    by rewrite side_of_executed_partial in Hx.
Qed.

Lemma _match_sweeps (fuel : nat) (own : side_ref) (l : loc) (w : World) (top : Z) :
  (2 ≤ fuel)%nat →
  sweepable own l w →
  Side.best (side_of (opposite own) (book w)) = inr top →
  compatible own (price (heap w l)) top = true →
  qty (heap w l) ≤ Side.volume (heap w) (side_of (opposite own) (book w)) →
  _match fuel (opposite own) l w =
    ((sweep own l (Side.resting (side_of (opposite own) (book w))) w).1, Return tt).
Proof.
  intros Hfuel Hsw Hbest Hc Hvol. pose proof (proj1 Hsw) as Htag.
  unfold _match, bind at 1, get_book at 1, bind at 1, read at 1.
  rewrite (stype_side_of _ _ Htag). cbn [book]. rewrite Hbest.
  apply Z.leb_le in Hvol.
  assert (Hgood : ∀ k : bool → M unit,
            bind (if String.eqb (tag (opposite own)) "BID"
                  then bind (lift (inr top)) (fun t => ret (price (heap w l) <=? t))
                  else if String.eqb (tag (opposite own)) "ASK"
                       then bind (lift (inr top)) (fun t => ret (t <=? price (heap w l)))
                       else raise (UnboundLocalError "good_price")) k w
            = k true w).
  { intros k. destruct own; cbn in *; unfold bind; cbn; by rewrite Hc. }
  rewrite Hgood. unfold bind at 1, get_heap at 1. rewrite Hvol.
  by apply for_prices_sweep.
Qed.

(** ** What rests after a match attempt *)

Lemma removes_ret {A : Type} (a : A) : only_removes (ret a).
Proof. by intros w r x. Qed.

Lemma removes_raise {A : Type} (e : exn) : only_removes (@raise A e).
Proof. by intros w r x. Qed.

Lemma removes_bind {A B : Type} (m : M A) (k : A → M B) :
  only_removes m → (∀ a, only_removes (k a)) → only_removes (bind m k).
Proof.
  intros Hm Hk w r x. unfold bind. specialize (Hm w r x).
  destruct (m w) as [w' [a| |]]; cbn in *; [|done..].
  intros Hx. by apply Hm, (Hk a w').
Qed.

Lemma settle_state (k : string) (db dv : Z) (w : World) : (settle k db dv w).1 = w.
Proof.
  unfold settle, bind, participants_view, get_book, iadd_balance, iadd_volume,
    getitem. cbn.
  destruct (participants (book w) !! k) eqn:Hp; cbn; rewrite ?Hp; reflexivity.
Qed.

Lemma _payout_state (r : side_ref) (l : loc) (amt : option Z) (w : World) :
  (_payout r l amt w).1 = w.
Proof.
  unfold _payout, bind, get_book, read. cbn.
  repeat case_match; first [apply settle_state | reflexivity].
Qed.

Lemma removes__payout (r : side_ref) (l : loc) (amt : option Z) :
  only_removes (_payout r l amt).
Proof. intros w r' x. by rewrite _payout_state. Qed.

Lemma removes_side_remove (r : side_ref) (i : Z) : only_removes (side_remove r i).
Proof.
  intros w r' x.
  assert (Hs : side_of r' (book (side_remove r i w).1) =
               if decide (r' = r)
               then Side.remove (heap w) (side_of r (book w)) i
               else side_of r' (book w)) by (by destruct r, r').
  rewrite Hs. destruct (decide (r' = r)) as [->|]; [|done].
  rewrite resting_remove. unfold Side.others. rewrite list_elem_of_filter. tauto.
Qed.

Lemma removes_execute (l : loc) (amt : option Z) : only_removes (execute l amt).
Proof.
  unfold execute. apply removes_bind; [by intros w r x|]. intros o.
  apply removes_bind.
  - repeat case_match;
      first [ apply removes_ret
            | apply removes_bind; [apply removes__payout|intros _];
              first [apply removes_side_remove | by intros w r x] ].
  - intros _. apply removes_bind; [by intros w r x|].
    intros o' w r x. by destruct r.
Qed.

Lemma removes_for_level (l : loc) (level : list loc) : only_removes (for_level l level).
Proof.
  induction level as [|o level IH]; [apply removes_ret|].
  cbn [for_level]. apply removes_bind; [by intros w r x|]. intros inc.
  apply removes_bind; [by intros w r x|]. intros rst.
  repeat case_match;
    repeat (apply removes_bind;
            [first [apply removes_execute | by intros w r x]|intros ?]);
    first [apply removes_ret | exact IH].
Qed.

Lemma removes_while_not_matched (fuel : nat) (c : side_ref) (l : loc) (p : Z) :
  ∀ lvl, only_removes (while_not_matched fuel c l p lvl).
Proof.
  induction fuel as [|fuel IH]; intros lvl; [by intros w r x|].
  cbn [while_not_matched]. apply removes_bind; [by intros w r x|]. intros b.
  destruct (Side.get (side_of c b) p) as [e|queue].
  - destruct e; first [apply removes_ret | apply removes_raise].
  - apply removes_bind; [apply removes_for_level|].
    intros [|]; [apply removes_ret|apply IH].
Qed.

Lemma removes_for_prices (fuel : nat) (c : side_ref) (l : loc) (ps : list Z) :
  ∀ lvl, only_removes (for_prices fuel c l ps lvl).
Proof.
  induction ps as [|p ps IH]; intros lvl; [apply removes_ret|].
  cbn [for_prices]. apply removes_bind; [apply removes_while_not_matched|].
  intros [matched lvl']. cbn [fst snd].
  destruct matched; [apply removes_ret|].
  destruct lvl' as [queue|]; [|apply removes_raise].
  destruct (List.length queue =? 0)%nat; [apply removes_ret|apply IH].
Qed.

(** Whatever the state, and however it ends, a match attempt puts no order
    on either side. *)
Lemma removes__match (fuel : nat) (c : side_ref) (l : loc) :
  only_removes (_match fuel c l).
Proof.
  unfold _match. apply removes_bind; [by intros w r x|]. intros b.
  apply removes_bind; [by intros w r x|]. intros o.
  apply removes_bind.
  - repeat case_match; try apply removes_raise;
      (apply removes_bind; [|intros ?; apply removes_ret]);
      unfold lift; case_match; first [apply removes_raise | apply removes_ret].
  - intros [|]; [|apply removes_raise].
    apply removes_bind; [by intros w r x|]. intros h.
    case_match; [apply removes_for_prices|apply removes_raise].
Qed.

(** [add] on an admitted order whose match attempt ends normally. *)
Lemma add_after_match (fuel : nat) (own : side_ref) (l : loc) (w w' : World) :
  admitted w l own →
  _match fuel (opposite own) l w = (w', Return tt) →
  add fuel l w = (w', Return None).
Proof.
  intros [Ht (p & Hp & Hs)] Hm.
  unfold add, bind at 1, read at 1. rewrite Ht.
  destruct (tag_eqb_own own) as [-> ->].
  destruct own; cbn [opposite] in *;
    unfold bind at 1, participants_view at 1, bind at 1, get_book at 1, ret at 1;
    unfold bind at 1, getitem at 1; rewrite Hp; unfold ret at 1;
    cbn [sufficient] in Hs; rewrite Hs;
    unfold try_except, bind; rewrite Hm; reflexivity.
Qed.

(** ** Matching *)



(** C7: an admitted order that rests on neither side when it comes in.
    Whenever its match attempt ends normally, in whatever state, [add]
    completes and returns no identifier, and the order rests on neither
    side afterwards.  And the match attempt does end normally, with the
    order used up by the sweep over the opposing side's resting orders,
    whenever the order passes the compatibility and sufficiency checks on
    an orderly opposing side. *)
Theorem matched_order_gets_no_identifier (fuel : nat) (own : side_ref)
    (l : loc) (w : World) :
  admitted w l own →
  (∀ r, l ∉ Side.resting (side_of r (book w))) →
  (∀ w', _match fuel (opposite own) l w = (w', Return tt) →
         add fuel l w = (w', Return None)
         ∧ ∀ r, l ∉ Side.resting (side_of r (book w')))
  ∧ (∀ top,
       (2 ≤ fuel)%nat →
       sweepable own l w →
       Side.best (side_of (opposite own) (book w)) = inr top →
       compatible own (price (heap w l)) top = true →
       qty (heap w l) ≤ Side.volume (heap w) (side_of (opposite own) (book w)) →
       ∃ w', _match fuel (opposite own) l w = (w', Return tt)
         ∧ sweep own l (Side.resting (side_of (opposite own) (book w))) w = (w', true)).
Proof.
  intros Hadm Hfresh. split.
  - intros w' Hm. split; [by apply (add_after_match fuel own)|].
    intros r Hin. apply (Hfresh r).
    apply (removes__match fuel (opposite own) l w r l). by rewrite Hm.
  - intros top Hfuel Hsw Hbest Hc Hvol.
    exists (sweep own l (Side.resting (side_of (opposite own) (book w))) w).1.
    split; [by eapply _match_sweeps|].
    rewrite (surjective_pairing (sweep own l _ w)) at 1. f_equal.
    apply sweep_matched; [apply Hfresh|].
    destruct Hsw as [_ [_ _ _ _ (_ & Hq & _)]].
    rewrite <- volume_resting. lia.
Qed.

(** ** The ledger under the book's operations *)

Lemma keeps_ret {A : Type} (a : A) : keeps_ledger (ret a).
Proof. by intros w. Qed.

Lemma keeps_raise {A : Type} (e : exn) : keeps_ledger (@raise A e).
Proof. by intros w. Qed.

Lemma keeps_bind {A B : Type} (m : M A) (k : A → M B) :
  keeps_ledger m → (∀ a, keeps_ledger (k a)) → keeps_ledger (bind m k).
Proof.
  intros Hm Hk w. unfold bind. specialize (Hm w).
  destruct (m w) as [w' [a| |]]; cbn in *; [|done..].
  by rewrite (Hk a w').
Qed.

Lemma keeps_try_except {A : Type} (m : M A) (handler : exn → option (M A)) :
  keeps_ledger m → (∀ e k, handler e = Some k → keeps_ledger k) →
  keeps_ledger (try_except m handler).
Proof.
  intros Hm Hh w. unfold try_except. specialize (Hm w).
  destruct (m w) as [w' [a|e|]]; cbn in *; [done| |done].
  destruct (handler e) as [k|] eqn:He; [|done].
  by rewrite (Hh e k He w').
Qed.

Lemma keeps_settle (k : string) (db dv : Z) : keeps_ledger (settle k db dv).
Proof.
  unfold settle, participants_view, iadd_balance, iadd_volume, getitem.
  repeat (apply keeps_bind; [|intros ?]);
    try (by intros w); by destruct (_ !! _); intros w.
Qed.

Lemma keeps__payout (r : side_ref) (l : loc) (amt : option Z) :
  keeps_ledger (_payout r l amt).
Proof.
  unfold _payout. apply keeps_bind; [by intros w|]. intros b.
  apply keeps_bind; [by intros w|]. intros o.
  repeat case_match; first [apply keeps_settle | apply keeps_ret].
Qed.

Lemma keeps_side_remove (r : side_ref) (i : Z) : keeps_ledger (side_remove r i).
Proof. intros w. by destruct r. Qed.

Lemma keeps_execute (l : loc) (amt : option Z) : keeps_ledger (execute l amt).
Proof.
  unfold execute. apply keeps_bind; [by intros w|]. intros o.
  apply keeps_bind.
  - repeat case_match;
      first [ apply keeps_ret
            | apply keeps_bind; [apply keeps__payout|intros _];
              first [apply keeps_side_remove | by intros w] ].
  - intros _. apply keeps_bind; [by intros w|]. by intros o' w.
Qed.

Lemma keeps_for_level (l : loc) (level : list loc) : keeps_ledger (for_level l level).
Proof.
  induction level as [|o level IH]; [apply keeps_ret|].
  cbn [for_level]. apply keeps_bind; [by intros w|]. intros inc.
  apply keeps_bind; [by intros w|]. intros rst.
  repeat case_match;
    repeat (apply keeps_bind; [first [apply keeps_execute | by intros w]|intros ?]);
    first [apply keeps_ret | exact IH].
Qed.

Lemma keeps_while_not_matched (fuel : nat) (c : side_ref) (l : loc) (p : Z) :
  ∀ lvl, keeps_ledger (while_not_matched fuel c l p lvl).
Proof.
  induction fuel as [|fuel IH]; intros lvl; [by intros w|].
  cbn [while_not_matched]. apply keeps_bind; [by intros w|]. intros b.
  destruct (Side.get (side_of c b) p) as [e|queue].
  - destruct e; first [apply keeps_ret | apply keeps_raise].
  - apply keeps_bind; [apply keeps_for_level|]. intros [|]; [apply keeps_ret|apply IH].
Qed.

Lemma keeps_for_prices (fuel : nat) (c : side_ref) (l : loc) (ps : list Z) :
  ∀ lvl, keeps_ledger (for_prices fuel c l ps lvl).
Proof.
  induction ps as [|p ps IH]; intros lvl; [apply keeps_ret|].
  cbn [for_prices]. apply keeps_bind; [apply keeps_while_not_matched|].
  intros [matched lvl']. cbn [fst snd].
  destruct matched; [apply keeps_ret|].
  destruct lvl' as [queue|]; [|apply keeps_raise].
  destruct (List.length queue =? 0)%nat; [apply keeps_ret|apply IH].
Qed.

Lemma keeps__match (fuel : nat) (c : side_ref) (l : loc) :
  keeps_ledger (_match fuel c l).
Proof.
  unfold _match. apply keeps_bind; [by intros w|]. intros b.
  apply keeps_bind; [by intros w|]. intros o.
  apply keeps_bind.
  - repeat case_match; try apply keeps_raise;
      (apply keeps_bind; [|intros ?; apply keeps_ret]);
      unfold lift; case_match; first [apply keeps_raise | apply keeps_ret].
  - intros [|]; [|apply keeps_raise].
    apply keeps_bind; [by intros w|]. intros h.
    case_match; [apply keeps_for_prices|apply keeps_raise].
Qed.

Lemma keeps_rest_on (own : side_ref) (l : loc) : keeps_ledger (rest_on own l).
Proof. intros w. rewrite rest_on_eq. by destruct own. Qed.

(** Whatever the order and the state, and whether [add] returns, raises or
    runs out of fuel, the participant dictionary of the book is the same
    after the call: [_payout] settles on copies. *)
Lemma add_keeps_ledger (fuel : nat) (l : loc) : keeps_ledger (add fuel l).
Proof.
  assert (Hgate : ∀ own c,
            keeps_ledger (try_except (bind (_match fuel c l) (fun _ => ret None))
                            (resting_handler own l))).
  { intros own c. apply keeps_try_except.
    - apply keeps_bind; [apply keeps__match|]. intros _. apply keeps_ret.
    - intros e k He. destruct e; cbn in He; try discriminate;
        injection He as <-; apply keeps_rest_on. }
  unfold add. apply keeps_bind; [by intros w|]. intros o.
  repeat case_match; try apply keeps_ret;
    (apply keeps_bind; [by intros w|]; intros d;
     apply keeps_bind; [unfold getitem; case_match; by intros w|]; intros p;
     case_match; [apply Hgate|apply keeps_raise]).
Qed.

(** ** Scenarios *)

(** C1: in the full-match scenario the BID is admitted and matched, both
    orders are off the book and LTP is 5.00, but the ledger seen through the
    [participants] view is what it was: B still has balance 50.00 and
    position 0, S still has balance 0 and position 10.  The decrease of B's
    balance by 50.00 and the other three movements do not happen. *)
Theorem full_match_leaves_ledger_untouched :
  Side.levels (asks (book ask_resting)) = [(500, [0%nat])]
  ∧ (add 2 1%nat ask_resting).2 = Return None
  ∧ Side.levels (bids (book (add 2 1%nat ask_resting).1)) = []
  ∧ Side.levels (asks (book (add 2 1%nat ask_resting).1)) = []
  ∧ LTP (book (add 2 1%nat ask_resting).1) = 500
  ∧ participants (book (add 2 1%nat ask_resting).1) !! "B" = Some buyer
  ∧ participants (book (add 2 1%nat ask_resting).1) !! "S" = Some seller
  ∧ participants (book (add 2 1%nat ask_resting).1) !! "B"
      ≠ Some (mkParticipant "B" (balance buyer - 5000) (volume buyer + 10))
  ∧ participants (book (add 2 1%nat ask_resting).1) !! "S"
      ≠ Some (mkParticipant "S" (balance seller + 5000) (volume seller - 10)).
Proof.
  assert (Hb : participants (book (add 2 1%nat ask_resting).1) !! "B" = Some buyer).
  { unfold participants, deepcopy. rewrite add_keeps_ledger. reflexivity. }
  assert (Hs : participants (book (add 2 1%nat ask_resting).1) !! "S" = Some seller).
  { unfold participants, deepcopy. rewrite add_keeps_ledger. reflexivity. }
  rewrite Hb, Hs.
  repeat split; try (vm_compute; reflexivity); intros [=].
Qed.

(** ** The statements at work on a book with resting asks *)

Lemma sweep_world_sweepable (l : loc) :
  l = 3%nat ∨ l = 4%nat ∨ l = 5%nat → sweepable Bids l sweep_world.
Proof.
  intros Hl. split; [by split|].
  split; cbn.
  - by repeat constructor.
  - compute_done.
  - compute_done.
  - compute_done.
  - destruct Hl as [->|[->| ->]]; repeat split; compute_done.
Defined.

(** C3 at work: B's bid for 1000 units at 5.10 against a balance of
    200.00. *)
Lemma funds_gate_rejects_witness :
  participants (book sweep_world) !! owner (heap sweep_world 6%nat)
    = Some (mkParticipant "B" 20000 0)
  ∧ otype (heap sweep_world 6%nat) = "BID"
  ∧ 20000 < price (heap sweep_world 6%nat) * qty (heap sweep_world 6%nat)
  ∧ add 2 6%nat sweep_world = (sweep_world, Raise InsufficientFundsError).
Proof.
  assert (Hp : participants (book sweep_world) !! owner (heap sweep_world 6%nat)
               = Some (mkParticipant "B" 20000 0)) by reflexivity.
  assert (Hlt : 20000 < price (heap sweep_world 6%nat) * qty (heap sweep_world 6%nat))
    by (cbn; lia).
  split; [exact Hp|]. split; [reflexivity|]. split; [exact Hlt|].
  apply (funds_gate_rejects 2 sweep_world 6%nat _ Hp).
  left. split; [reflexivity|exact Hlt].
Defined.

Lemma sweep_world_admitted (l : loc) :
  l = 3%nat ∨ l = 4%nat ∨ l = 5%nat → admitted sweep_world l Bids.
Proof.
  intros Hl. split.
  - by destruct Hl as [->|[->| ->]].
  - exists (mkParticipant "B" 20000 0).
    destruct Hl as [->|[->| ->]]; split; reflexivity.
Defined.

(** B's bid for 20 units at 5.10 against 13 resting units comes to rest. *)
Lemma insufficient_volume_rests_witness :
  Side.volume (heap sweep_world) (asks (book sweep_world)) = 13
  ∧ qty (heap sweep_world 4%nat) = 20
  ∧ ∃ w', add 2 4%nat sweep_world = (w', Return (Some 14))
      ∧ Side.get (bids (book w')) 510 = inr [4%nat]
      ∧ qty (heap w' 4%nat) = 20 ∧ price (heap w' 4%nat) = 510.
Proof.
  split; [reflexivity|]. split; [reflexivity|].
  destruct (insufficient_volume_rests 2 Bids 4%nat sweep_world 500)
    as (w' & i & Hadd & Hoid & _ & Hq & Hp).
  - by split.
  - apply sweep_world_admitted. right. by left.
  - reflexivity.
  - reflexivity.
  - cbn. lia.
  - exists w'. rewrite Hadd. rewrite Hq, Hp.
    assert (Hw : (add 2 4%nat sweep_world).1 = w') by (by rewrite Hadd).
    assert (Hi : (add 2 4%nat sweep_world).2 = Return (Some i)) by (by rewrite Hadd).
    vm_compute in Hi. injection Hi as <-.
    split; [reflexivity|]. split; [|done].
    rewrite <- Hw. reflexivity.
Defined.

(** C5 at work: B's bid at 4.90 against a best ask of 5.00. *)
Lemma price_out_of_range_rests_witness :
  Side.best (asks (book sweep_world)) = inr 500
  ∧ price (heap sweep_world 5%nat) = 490
  ∧ ∃ w' i, add 2 5%nat sweep_world = (w', Return (Some i))
      ∧ asks (book w') = asks (book sweep_world)
      ∧ LTP (book w') = LTP (book sweep_world)
      ∧ participants (book w') = participants (book sweep_world).
Proof.
  split; [reflexivity|]. split; [reflexivity|].
  destruct (price_out_of_range_rests 2 Bids 5%nat sweep_world 500)
    as (w' & i & Hadd & _ & _ & _ & _ & _ & Hc & Hps & Hltp).
  - by split.
  - apply sweep_world_admitted. right. by right.
  - reflexivity.
  - cbn. lia.
  - exists w', i. by repeat split.
Defined.



(** C7 at work: B's bid for 9 units against 13 resting units. *)
Lemma matched_order_gets_no_identifier_witness :
  ∃ w', add 2 3%nat sweep_world = (w', Return None)
    ∧ ∀ r, 3%nat ∉ Side.resting (side_of r (book w')).
Proof.
  destruct (matched_order_gets_no_identifier 2 Bids 3%nat sweep_world)
    as [Hret Hruns].
  - apply sweep_world_admitted. by left.
  - intros []; cbn; [apply not_elem_of_nil|]. compute_done.
  - destruct (Hruns 500) as (w' & Hm & _).
    + lia.
    + apply sweep_world_sweepable. by left.
    + reflexivity.
    + reflexivity.
    + cbn. lia.
    + exists w'. by apply Hret.
Defined.

(** C9 at work: cancelling the identifier 5 takes the second ask off its
    level; cancelling 77, which no order bears, changes nothing. *)
Lemma cancel_removes_and_never_settles_witness :
  cancel 5 sweep_world = (cancelled 5 sweep_world, Return tt)
  ∧ Side.levels (asks (book (cancelled 5 sweep_world))) =
      [(500, [0%nat]); (510, [2%nat])]
  ∧ cancel 77 sweep_world = (sweep_world, Return tt).
Proof.
  split; [reflexivity|]. split; [reflexivity|].
  destruct (cancel_removes_and_never_settles sweep_world 77)
    as (w' & Hc & _ & _ & _ & _ & _ & Hnoop).
  rewrite Hc. f_equal. apply Hnoop.
  - constructor.
  - by repeat constructor.
  - constructor.
  - compute_done.
Defined.

(** ** The order of the levels *)

Lemma outranks_trans (st : string) (p q r : Z) :
  Side.outranks st p q = true → Side.outranks st q r = true →
  Side.outranks st p r = true.
Proof. unfold Side.outranks. destruct (String.eqb st "BID"); lia. Qed.

Lemma outranks_total (st : string) (p q : Z) :
  (p =? q) = false → Side.outranks st p q = false → Side.outranks st q p = true.
Proof. unfold Side.outranks. destruct (String.eqb st "BID"); lia. Qed.

Lemma insert_level_keys (st : string) (p : Z) (l : loc) (lvls : list (Z * list loc)) (x : Z) :
  x ∈ map fst (Side.insert_level st p l lvls) → x = p ∨ x ∈ map fst lvls.
Proof.
  induction lvls as [|[q queue] lvls IH]; cbn.
  - intros Hx. apply list_elem_of_singleton in Hx. by left.
  - destruct (p =? q); [by right|].
    destruct (Side.outranks st p q); cbn.
    + intros Hx. apply elem_of_cons in Hx as [->|Hx]; [by left | by right].
    + intros Hx. apply elem_of_cons in Hx as [->|Hx]; [right; left|].
      destruct (IH Hx) as [->|Hin]; [by left | right; by right].
Qed.

(** [put] keeps the levels in priority order. *)
Lemma put_best_first (h : store) (s : Side.t) (l : loc) :
  best_first s → best_first (Side.put h s l).
Proof.
  unfold best_first, Side.put, Side.prices. cbn [Side.stype Side.levels].
  generalize (price (h l)) as p. generalize (Side.stype s) as st. intros st p.
  induction (Side.levels s) as [|[q queue] lvls IH]; intros Hs; cbn.
  - repeat constructor.
  - cbn in Hs. apply StronglySorted_cons in Hs as [Hq Hs].
    destruct (p =? q) eqn:Hpq; [by apply StronglySorted_cons|].
    destruct (Side.outranks st p q) eqn:Hr; cbn.
    + apply StronglySorted_cons. split; [|by apply StronglySorted_cons].
      apply Forall_cons. split; [exact Hr|].
      eapply Forall_impl; [exact Hq|]. intros x Hx. by eapply outranks_trans.
    + apply StronglySorted_cons. split; [|by apply IH].
      apply Forall_forall. intros x Hx.
      destruct (insert_level_keys _ _ _ _ _ Hx) as [->|Hin].
      * by apply outranks_total.
      * rewrite Forall_forall in Hq. by apply Hq.
Qed.

Lemma remove_levels_keys (h : store) (i : Z) (lvls : list (Z * list loc)) (x : Z) :
  x ∈ map fst (Side.remove_levels h i lvls) → x ∈ map fst lvls.
Proof.
  induction lvls as [|[q queue] lvls IH]; [done|].
  cbn [Side.remove_levels]. destruct (Side.others h i queue); cbn.
  - intros Hx. right. by apply IH.
  - intros Hx. apply elem_of_cons in Hx as [->|Hx]; [left | right; by apply IH].
Qed.

(** [remove] keeps the levels in priority order. *)
Lemma remove_best_first (h : store) (s : Side.t) (i : Z) :
  best_first s → best_first (Side.remove h s i).
Proof.
  unfold best_first, Side.remove, Side.prices. cbn [Side.stype Side.levels].
  generalize (Side.stype s) as st. intros st.
  induction (Side.levels s) as [|[q queue] lvls IH]; intros Hs; [done|].
  cbn in Hs. apply StronglySorted_cons in Hs as [Hq Hs].
  cbn [Side.remove_levels]. destruct (Side.others h i queue); [by apply IH|].
  cbn. apply StronglySorted_cons. split; [|by apply IH].
  apply Forall_forall. intros x Hx. rewrite Forall_forall in Hq.
  by apply Hq, (remove_levels_keys h i).
Qed.

(** With the levels in priority order, [best] is the price no other level
    outranks. *)
Lemma best_outranks_rest (s : Side.t) (top : Z) :
  best_first s → Side.best s = inr top →
  ∀ p, p ∈ Side.prices s → p = top ∨ Side.outranks (Side.stype s) top p = true.
Proof.
  unfold best_first, Side.best, Side.prices.
  destruct (Side.levels s) as [|[q queue] lvls]; [done|].
  cbn. intros Hs [= ->] p Hp. apply StronglySorted_cons in Hs as [Hq _].
  apply elem_of_cons in Hp as [->|Hp]; [by left|right].
  rewrite Forall_forall in Hq. by apply Hq.
Qed.

(** ** Admission against an empty opposing side *)



(** ** Further properties *)

(** Whatever the order and the state, [add] leaves every balance and every
    position of the book's ledger as it was. *)
Theorem add_never_settles (fuel : nat) (l : loc) (w : World) :
  participants (book (add fuel l w).1) = participants (book w).
Proof. apply (add_keeps_ledger fuel l w). Qed.

(** On a name the parameter map holds, [set_param] completes and changes
    the value stored under that name and nothing else: the other
    parameters, the name of the book, the ledger, both sides, LTP and every
    order object are as before; and [get_param] then returns the value,
    leaving the state as it is. *)
Theorem set_then_get_param (w : World) (nm : string) (v v0 : Z) :
  params_ (book w) !! nm = Some v0 →
  ∃ w', set_param nm v w = (w', Return tt)
    ∧ params_ (book w') = <[nm := v]> (params_ (book w))
    ∧ params_ (book w') !! nm = Some v
    ∧ (∀ nm', nm' ≠ nm → params_ (book w') !! nm' = params_ (book w) !! nm')
    ∧ name (book w') = name (book w)
    ∧ participants_ (book w') = participants_ (book w)
    ∧ bids (book w') = bids (book w)
    ∧ asks (book w') = asks (book w)
    ∧ LTP (book w') = LTP (book w)
    ∧ heap w' = heap w
    ∧ get_param nm w' = (w', Return v).
Proof.
  intros Hsome.
  exists (mkWorld (heap w) (with_params (<[nm := v]> (params_ (book w))) (book w))).
  split.
  { unfold set_param, bind, get_book, modify_book. cbn. by rewrite Hsome. }
  cbn. split; [reflexivity|]. split; [apply lookup_insert_eq|].
  split; [intros nm' Hne; by apply lookup_insert_ne|].
  repeat (split; [reflexivity|]).
  unfold get_param, bind, get_book. cbn. by rewrite lookup_insert_eq.
Qed.

(** The parameter "lot" set to 50 and read back. *)
Lemma set_then_get_param_witness :
  params_ (book world_lot) !! "lot" = Some 100
  ∧ ∃ w', set_param "lot" 50 world_lot = (w', Return tt)
      ∧ params_ (book w') !! "lot" = Some 50
      ∧ bids (book w') = bids (book world_lot)
      ∧ asks (book w') = asks (book world_lot)
      ∧ get_param "lot" w' = (w', Return 50).
Proof.
  assert (Hsome : params_ (book world_lot) !! "lot" = Some 100) by reflexivity.
  split; [exact Hsome|].
  destruct (set_then_get_param world_lot "lot" 50 100 Hsome)
    as (w' & Hs & _ & Hp & _ & _ & _ & Hb & Ha & _ & _ & Hg).
  by exists w'.
Defined.

(** ** Construction *)

Lemma fold_insert_lookup (ps : list Participant) :
  ∀ (d : gmap string Participant) (n : string),
  fold_left (fun d p => <[pname p := p]> d) ps d !! n =
  match last_named n ps with
  | Some p => Some p
  | None => d !! n
  end.
Proof.
  unfold last_named. induction ps as [|p ps IH]; intros d n; [reflexivity|].
  cbn [fold_left]. rewrite IH.
  destruct (decide (pname p = n)) as [Hn|Hn].
  - rewrite (filter_cons_True _ p ps Hn).
    destruct (filter (fun p => pname p = n) ps) as [|q qs] eqn:Hf.
    + cbn. rewrite <- Hn. apply lookup_insert_eq.
    + rewrite last_cons_cons.
      destruct (last (q :: qs)) eqn:Hlast; [done|]. by apply last_None in Hlast.
  - rewrite (filter_cons_False _ p ps Hn).
    destruct (last (filter (fun p => pname p = n) ps)); [done|].
    by apply lookup_insert_ne.
Qed.

(** A book as [__init__] builds it: under each name the ledger holds the
    last participant of the list that bears it, and nothing under a name no
    participant bears; the name and the parameters are the ones given (no
    parameter when none is given); both sides are empty and tagged BID and
    ASK; LTP is 0. *)
Theorem init_registers_last_of_each_name (nm : string) (ps : list Participant)
    (params : option (gmap string Z)) (n : string) :
  participants (Book_init nm ps params) !! n = last_named n ps
  ∧ (∀ p, participants (Book_init nm ps params) !! n = Some p → pname p = n ∧ p ∈ ps)
  ∧ name (Book_init nm ps params) = nm
  ∧ params_ (Book_init nm ps params) = default ∅ params
  ∧ bids (Book_init nm ps params) = Side.mk "BID" []
  ∧ asks (Book_init nm ps params) = Side.mk "ASK" []
  ∧ LTP (Book_init nm ps params) = 0.
Proof.
  assert (Hl : participants (Book_init nm ps params) !! n = last_named n ps).
  { unfold participants, deepcopy, Book_init. cbn [participants_].
    rewrite fold_insert_lookup, lookup_empty. by destruct (last_named n ps). }
  split; [exact Hl|]. split; [|by destruct params].
  intros p Hp. rewrite Hl in Hp. unfold last_named in Hp.
  apply last_Some_elem_of in Hp. apply list_elem_of_filter in Hp. tauto.
Qed.

(** ** Orders [add] and [execute] cannot place *)

(** A BID or an ASK whose owner is under no name of the ledger: the lookup
    of the admission check fails, [add] raises KeyError with the owner as
    key, and the state is as before. *)
Theorem add_unregistered_owner (fuel : nat) (l : loc) (w : World) :
  otype (heap w l) = "BID" ∨ otype (heap w l) = "ASK" →
  participants (book w) !! owner (heap w l) = None →
  add fuel l w = (w, Raise (KeyError (owner (heap w l)))).
Proof.
  intros Ht Hp. unfold add, bind, read, participants_view, get_book. cbn.
  destruct Ht as [-> | ->]; cbn; unfold getitem; rewrite Hp; reflexivity.
Qed.

Lemma add_unregistered_owner_witness :
  otype (heap full_match_start 1%nat) = "BID"
  ∧ participants (book world_lot) !! "B" = None
  ∧ add 2 1%nat (mkWorld full_match_heap book_lot) =
      (mkWorld full_match_heap book_lot, Raise (KeyError "B")).
Proof.
  split; [reflexivity|]. split; [reflexivity|].
  apply (add_unregistered_owner 2 1%nat (mkWorld full_match_heap book_lot)).
  - left. reflexivity.
  - reflexivity.
Defined.

(** An order whose type is neither "BID" nor "ASK" is taken by [add]
    without a word: the call returns None, no check is made (the owner need
    not be registered), and the state is as before. *)
Theorem add_ignores_unknown_type (fuel : nat) (l : loc) (w : World) :
  otype (heap w l) ≠ "BID" →
  otype (heap w l) ≠ "ASK" →
  add fuel l w = (w, Return None).
Proof.
  intros Hb Ha. unfold add, bind, read. cbn.
  apply String.eqb_neq in Hb, Ha. by rewrite Hb, Ha.
Qed.

Lemma add_ignores_unknown_type_witness :
  otype (heap world_lot 0%nat) = ""
  ∧ add 2 0%nat world_lot = (world_lot, Return None).
Proof.
  split; [reflexivity|].
  apply (add_ignores_unknown_type 2 0%nat world_lot); discriminate.
Defined.

(** [execute] on an order whose owner is under no name of the ledger
    raises KeyError before anything is written: the order keeps its
    quantity and its place, and LTP is not updated. *)
Theorem execute_unregistered_owner (l : loc) (amt : option Z) (w : World)
    (r : side_ref) :
  tagged (book w) →
  otype (heap w l) = tag r →
  participants (book w) !! owner (heap w l) = None →
  execute l amt w = (w, Raise (KeyError (owner (heap w l)))).
Proof.
  intros Htag Ht Hp.
  assert (Hpay : ∀ a, _payout r l a w = (w, Raise (KeyError (owner (heap w l))))).
  { intros a. unfold _payout, bind at 1, get_book at 1, bind at 1, read at 1.
    rewrite (stype_side_of _ _ Htag). destruct (tag_eqb_own r) as [-> ->].
    destruct r, (truthy a);
      unfold settle, bind, participants_view, get_book, iadd_balance, getitem;
      cbn; by rewrite Hp. }
  unfold execute, bind at 1, read at 1. rewrite Ht.
  destruct (tag_eqb_own r) as [-> ->]. unfold bind.
  destruct r, (truthy amt); by rewrite Hpay.
Qed.

Lemma execute_unregistered_owner_witness :
  participants (book world_lot) !! "B" = None
  ∧ execute 1%nat None (mkWorld full_match_heap book_lot) =
      (mkWorld full_match_heap book_lot, Raise (KeyError "B")).
Proof.
  split; [reflexivity|].
  apply (execute_unregistered_owner 1%nat None
           (mkWorld full_match_heap book_lot) Bids).
  - by split.
  - reflexivity.
  - reflexivity.
Defined.

(** [execute] on an order whose type is neither "BID" nor "ASK" settles
    nothing, removes nothing and reduces no quantity, with or without an
    amount, yet LTP takes the order's price. *)
Theorem execute_unknown_type_sets_LTP (l : loc) (amt : option Z) (w : World) :
  otype (heap w l) ≠ "BID" →
  otype (heap w l) ≠ "ASK" →
  execute l amt w =
    (mkWorld (heap w) (with_LTP (price (heap w l)) (book w)), Return tt).
Proof.
  intros Hb Ha. unfold execute, bind, read. cbn.
  apply String.eqb_neq in Hb, Ha. rewrite Hb, Ha. by destruct (truthy amt).
Qed.

Lemma execute_unknown_type_sets_LTP_witness :
  LTP (book world_lot) = 0
  ∧ execute 0%nat (Some 3) world_lot =
      (mkWorld (heap world_lot) (with_LTP 1 (book world_lot)), Return tt).
Proof.
  split; [reflexivity|].
  apply (execute_unknown_type_sets_LTP 0%nat (Some 3) world_lot); discriminate.
Defined.

(** ** What the operations leave alone *)

Section Preserved.

Context {X : Type} (f : Book → X).

Hypothesis f_LTP : ∀ p b, f (with_LTP p b) = f b.

Hypothesis f_side :
  ∀ r s b, Side.stype s = Side.stype (side_of r b) → f (with_side r s b) = f b.

Lemma preserves_ret {A : Type} (a : A) : preserves f (ret a).
Proof. by intros w. Qed.

Lemma preserves_raise {A : Type} (e : exn) : preserves f (@raise A e).
Proof. by intros w. Qed.

Lemma preserves_bind {A B : Type} (m : M A) (k : A → M B) :
  preserves f m → (∀ a, preserves f (k a)) → preserves f (bind m k).
Proof.
  intros Hm Hk w. unfold bind. specialize (Hm w).
  destruct (m w) as [w' [a| |]]; cbn in *; [|done..].
  by rewrite (Hk a w').
Qed.

Lemma preserves_try_except {A : Type} (m : M A) (handler : exn → option (M A)) :
  preserves f m → (∀ e k, handler e = Some k → preserves f k) →
  preserves f (try_except m handler).
Proof.
  intros Hm Hh w. unfold try_except. specialize (Hm w).
  destruct (m w) as [w' [a|e|]]; cbn in *; [done| |done].
  destruct (handler e) as [k|] eqn:He; [|done].
  by rewrite (Hh e k He w').
Qed.

Lemma preserves__payout (r : side_ref) (l : loc) (amt : option Z) :
  preserves f (_payout r l amt).
Proof. intros w. by rewrite _payout_state. Qed.

Lemma preserves_side_remove (r : side_ref) (i : Z) : preserves f (side_remove r i).
Proof. intros w. unfold side_remove. cbn. by apply f_side. Qed.

Lemma preserves_side_put (r : side_ref) (l : loc) : preserves f (side_put r l).
Proof. intros w. unfold side_put. cbn. by apply f_side. Qed.

Lemma preserves_execute (l : loc) (amt : option Z) : preserves f (execute l amt).
Proof.
  unfold execute. apply preserves_bind; [by intros w|]. intros o.
  apply preserves_bind.
  - repeat case_match;
      first [ apply preserves_ret
            | apply preserves_bind; [apply preserves__payout|intros _];
              first [apply preserves_side_remove | by intros w] ].
  - intros _. apply preserves_bind; [by intros w|].
    intros o' w. cbn. apply f_LTP.
Qed.

Lemma preserves_for_level (l : loc) (level : list loc) :
  preserves f (for_level l level).
Proof.
  induction level as [|o level IH]; [apply preserves_ret|].
  cbn [for_level]. apply preserves_bind; [by intros w|]. intros inc.
  apply preserves_bind; [by intros w|]. intros rst.
  repeat case_match;
    repeat (apply preserves_bind;
            [first [apply preserves_execute | by intros w]|intros ?]);
    first [apply preserves_ret | exact IH].
Qed.

Lemma preserves_while_not_matched (fuel : nat) (c : side_ref) (l : loc) (p : Z) :
  ∀ lvl, preserves f (while_not_matched fuel c l p lvl).
Proof.
  induction fuel as [|fuel IH]; intros lvl; [by intros w|].
  cbn [while_not_matched]. apply preserves_bind; [by intros w|]. intros b.
  destruct (Side.get (side_of c b) p) as [e|queue].
  - destruct e; first [apply preserves_ret | apply preserves_raise].
  - apply preserves_bind; [apply preserves_for_level|].
    intros [|]; [apply preserves_ret|apply IH].
Qed.

Lemma preserves_for_prices (fuel : nat) (c : side_ref) (l : loc) (ps : list Z) :
  ∀ lvl, preserves f (for_prices fuel c l ps lvl).
Proof.
  induction ps as [|p ps IH]; intros lvl; [apply preserves_ret|].
  cbn [for_prices]. apply preserves_bind; [apply preserves_while_not_matched|].
  intros [matched lvl']. cbn [fst snd].
  destruct matched; [apply preserves_ret|].
  destruct lvl' as [queue|]; [|apply preserves_raise].
  destruct (List.length queue =? 0)%nat; [apply preserves_ret|apply IH].
Qed.

Lemma preserves__match (fuel : nat) (c : side_ref) (l : loc) :
  preserves f (_match fuel c l).
Proof.
  unfold _match. apply preserves_bind; [by intros w|]. intros b.
  apply preserves_bind; [by intros w|]. intros o.
  apply preserves_bind.
  - repeat case_match; try apply preserves_raise;
      (apply preserves_bind; [|intros ?; apply preserves_ret]);
      unfold lift; case_match; first [apply preserves_raise | apply preserves_ret].
  - intros [|]; [|apply preserves_raise].
    apply preserves_bind; [by intros w|]. intros h.
    case_match; [apply preserves_for_prices|apply preserves_raise].
Qed.

Lemma preserves_rest_on (own : side_ref) (l : loc) : preserves f (rest_on own l).
Proof. intros w. rewrite rest_on_eq. unfold rested. cbn. by apply f_side. Qed.

Lemma preserves_add (fuel : nat) (l : loc) : preserves f (add fuel l).
Proof.
  assert (Hgate : ∀ own c,
            preserves f (try_except (bind (_match fuel c l) (fun _ => ret None))
                           (resting_handler own l))).
  { intros own c. apply preserves_try_except.
    - apply preserves_bind; [apply preserves__match|]. intros _. apply preserves_ret.
    - intros e k He. destruct e; cbn in He; try discriminate;
        injection He as <-; apply preserves_rest_on. }
  unfold add. apply preserves_bind; [by intros w|]. intros o.
  repeat case_match; try apply preserves_ret;
    (apply preserves_bind; [by intros w|]; intros d;
     apply preserves_bind; [unfold getitem; case_match; by intros w|]; intros p;
     case_match; [apply Hgate|apply preserves_raise]).
Qed.

Lemma preserves_cancel (i : Z) : preserves f (cancel i).
Proof.
  unfold cancel. apply preserves_bind; [apply preserves_side_remove|].
  intros _. apply preserves_side_remove.
Qed.

End Preserved.

Lemma fixtures_LTP (p : Z) (b : Book) : fixtures (with_LTP p b) = fixtures b.
Proof. reflexivity. Qed.

Lemma fixtures_side (r : side_ref) (s : Side.t) (b : Book) :
  Side.stype s = Side.stype (side_of r b) → fixtures (with_side r s b) = fixtures b.
Proof. intros Hs. destruct r; unfold fixtures; cbn in *; by rewrite Hs. Qed.

(** However a call of [add] or of [cancel] ends, the name of the book, its
    parameter map and the direction tags of its two sides are what they
    were; sides tagged BID and ASK stay so. *)
Theorem add_and_cancel_keep_fixtures (fuel : nat) (l : loc) (i : Z) (w : World) :
  fixtures (book (add fuel l w).1) = fixtures (book w)
  ∧ fixtures (book (cancel i w).1) = fixtures (book w)
  ∧ (tagged (book w) →
     tagged (book (add fuel l w).1) ∧ tagged (book (cancel i w).1)).
Proof.
  pose proof (preserves_add fixtures fixtures_LTP fixtures_side fuel l w) as Ha.
  pose proof (preserves_cancel fixtures fixtures_side i w) as Hc.
  split; [exact Ha|]. split; [exact Hc|].
  pose proof (f_equal (fun t => snd (fst t)) Ha) as Hab.
  pose proof (f_equal snd Ha) as Haa.
  pose proof (f_equal (fun t => snd (fst t)) Hc) as Hcb.
  pose proof (f_equal snd Hc) as Hca.
  unfold fixtures in Hab, Haa, Hcb, Hca. cbn [fst snd] in Hab, Haa, Hcb, Hca.
  intros [Hb Hk]. unfold tagged. by rewrite Hab, Haa, Hcb, Hca.
Qed.

(** ** Where the resting signals come from *)

Lemma quiet_ret {A : Type} (a : A) : quiet (ret a).
Proof. intros w w' e [=]. Qed.

Lemma quiet_raise {A : Type} (e : exn) : ¬ is_signal e → quiet (@raise A e).
Proof. intros He w w' e' [= _ <-]. exact He. Qed.

Lemma quiet_bind {A B : Type} (m : M A) (k : A → M B) :
  quiet m → (∀ a, quiet (k a)) → quiet (bind m k).
Proof.
  intros Hm Hk w w' e. unfold bind. specialize (Hm w).
  destruct (m w) as [w1 [a|e1|]]; [apply Hk | | done].
  intros [= <- <-]. by eapply Hm.
Qed.

Lemma not_signal_KeyError (k : string) : ¬ is_signal (KeyError k).
Proof. by intros [|]. Qed.

Lemma quiet_getitem (d : gmap string Participant) (k : string) : quiet (getitem d k).
Proof.
  unfold getitem. destruct (d !! k); [apply quiet_ret|].
  apply quiet_raise, not_signal_KeyError.
Qed.

Lemma quiet_settle (k : string) (db dv : Z) : quiet (settle k db dv).
Proof.
  unfold settle, participants_view, iadd_balance, iadd_volume.
  repeat (apply quiet_bind; [|intros ?]);
    first [apply quiet_getitem | apply quiet_ret | quiet_step].
Qed.

Lemma quiet__payout (r : side_ref) (l : loc) (amt : option Z) :
  quiet (_payout r l amt).
Proof.
  unfold _payout. apply quiet_bind; [quiet_step|]. intros b.
  apply quiet_bind; [quiet_step|]. intros o.
  repeat case_match; first [apply quiet_settle | apply quiet_ret].
Qed.

Lemma quiet_execute (l : loc) (amt : option Z) : quiet (execute l amt).
Proof.
  unfold execute. apply quiet_bind; [quiet_step|]. intros o.
  apply quiet_bind.
  - repeat case_match;
      first [ apply quiet_ret
            | apply quiet_bind; [apply quiet__payout|intros _];
              quiet_step ].
  - intros _. apply quiet_bind; [quiet_step | intros ?; quiet_step].
Qed.

Lemma quiet_for_level (l : loc) (level : list loc) : quiet (for_level l level).
Proof.
  induction level as [|o level IH]; [apply quiet_ret|].
  cbn [for_level]. apply quiet_bind; [quiet_step|]. intros inc.
  apply quiet_bind; [quiet_step|]. intros rst.
  repeat case_match;
    repeat (apply quiet_bind;
            [first [apply quiet_execute | quiet_step]|intros ?]);
    first [apply quiet_ret | exact IH].
Qed.

Lemma get_raises_NoPrice (s : Side.t) (p : Z) (e : exn) :
  Side.get s p = inl e → e = NoPriceError.
Proof. unfold Side.get. destruct (Side.find_level p (Side.levels s)); by intros [=]. Qed.

Lemma quiet_while_not_matched (fuel : nat) (c : side_ref) (l : loc) (p : Z) :
  ∀ lvl, quiet (while_not_matched fuel c l p lvl).
Proof.
  induction fuel as [|fuel IH]; intros lvl; [quiet_step|].
  cbn [while_not_matched]. apply quiet_bind; [quiet_step|]. intros b.
  destruct (Side.get (side_of c b) p) as [e|queue] eqn:Hg.
  - rewrite (get_raises_NoPrice _ _ _ Hg). apply quiet_ret.
  - apply quiet_bind; [apply quiet_for_level|].
    intros [|]; [apply quiet_ret|apply IH].
Qed.

(** The sweep raises neither of the two resting signals. *)
Lemma quiet_for_prices (fuel : nat) (c : side_ref) (l : loc) (ps : list Z) :
  ∀ lvl, quiet (for_prices fuel c l ps lvl).
Proof.
  induction ps as [|p ps IH]; intros lvl; [apply quiet_ret|].
  cbn [for_prices]. apply quiet_bind; [apply quiet_while_not_matched|].
  intros [matched lvl']. cbn [fst snd].
  destruct matched; [apply quiet_ret|].
  destruct lvl' as [queue|]; [|apply quiet_raise; by intros [|]].
  destruct (List.length queue =? 0)%nat; [apply quiet_ret|apply IH].
Qed.

(** A match attempt that raises one of the two resting signals has changed
    nothing. *)
Lemma _match_signal_state (fuel : nat) (c : side_ref) (l : loc) (w w' : World)
    (e : exn) :
  _match fuel c l w = (w', Raise e) → is_signal e → w' = w.
Proof.
  intros Hm He.
  unfold _match, bind, get_book, read, get_heap, lift, raise, ret in Hm.
  repeat case_match; simplify_eq; try done;
    exfalso; eapply quiet_for_prices; eauto.
Qed.

Lemma resting_put (h : store) (s : Side.t) (l x : loc) :
  x ∈ Side.resting (Side.put h s l) ↔ x = l ∨ x ∈ Side.resting s.
Proof.
  unfold Side.resting, Side.put. cbn [Side.levels].
  generalize (price (h l)) as p. generalize (Side.stype s) as st. intros st p.
  induction (Side.levels s) as [|[q queue] lvls IH]; cbn.
  - rewrite ?app_nil_r, list_elem_of_singleton, elem_of_nil. tauto.
  - destruct (p =? q); [|destruct (Side.outranks st p q)]; cbn.
    + rewrite !elem_of_app, list_elem_of_singleton. tauto.
    + rewrite elem_of_cons, !elem_of_app. tauto.
    + rewrite !elem_of_app, IH. tauto.
Qed.

(** The two ways [add] goes once the admission check is passed: the order
    comes to rest in the state [add] started from, or no identifier is
    returned and nothing is put on either side. *)
Lemma gate_cases (fuel : nat) (own c : side_ref) (l : loc) (w : World) :
  let r := try_except (bind (_match fuel c l) (fun _ => ret None))
             (resting_handler own l) w in
  r = (rested own l w, Return (Some (rest_id w)))
  ∨ ((∀ i, r.2 ≠ Return (Some i))
     ∧ ∀ r' x, x ∈ Side.resting (side_of r' (book r.1)) →
               x ∈ Side.resting (side_of r' (book w))).
Proof.
  cbn zeta. unfold try_except, bind.
  pose proof (removes__match fuel c l w) as Hrm.
  destruct (_match fuel c l w) as [w1 [[]|e|]] eqn:Hm; cbn [fst] in Hrm.
  - right. split; [by intros i|exact Hrm].
  - destruct e; cbn [resting_handler];
      try (right; split; [by intros i|exact Hrm]); left.
    + rewrite (_match_signal_state _ _ _ _ _ _ Hm (or_introl eq_refl)).
      apply rest_on_eq.
    + rewrite (_match_signal_state _ _ _ _ _ _ Hm (or_intror eq_refl)).
      apply rest_on_eq.
  - right. split; [by intros i|exact Hrm].
Qed.

(** [add], statement by statement. *)
Lemma add_unfold (fuel : nat) (l : loc) (w : World) :
  add fuel l w =
  let o := heap w l in
  let gate (own c : side_ref) (enough : Participant → bool) :=
    match participants (book w) !! owner o with
    | None => (w, Raise (KeyError (owner o)))
    | Some p =>
        if enough p
        then try_except (bind (_match fuel c l) (fun _ => ret None))
               (resting_handler own l) w
        else (w, Raise InsufficientFundsError)
    end in
  if String.eqb (otype o) "BID"
  then gate Bids Asks (fun p => price o * qty o <=? balance p)
  else if String.eqb (otype o) "ASK"
       then gate Asks Bids (fun p => qty o <=? volume p)
       else (w, Return None).
Proof.
  unfold add, bind at 1, read at 1. cbn zeta.
  destruct (String.eqb (otype (heap w l)) "BID");
    [|destruct (String.eqb (otype (heap w l)) "ASK"); [|reflexivity]];
    unfold bind at 1, participants_view at 1, bind at 1, get_book at 1, ret at 1;
    unfold bind at 1, getitem at 1;
    destruct (participants (book w) !! owner (heap w l)) as [p|]; try reflexivity;
    unfold ret at 1; by case_match.
Qed.

Lemma add_cases (fuel : nat) (l : loc) (w : World) :
  (∃ own, otype (heap w l) = tag own
          ∧ add fuel l w = (rested own l w, Return (Some (rest_id w))))
  ∨ ((∀ i, (add fuel l w).2 ≠ Return (Some i))
     ∧ ∀ r x, x ∈ Side.resting (side_of r (book (add fuel l w).1)) →
              x ∈ Side.resting (side_of r (book w))).
Proof.
  rewrite add_unfold. cbn zeta.
  destruct (String.eqb (otype (heap w l)) "BID") eqn:Hb;
    [|destruct (String.eqb (otype (heap w l)) "ASK") eqn:Ha].
  - apply String.eqb_eq in Hb.
    destruct (participants (book w) !! owner (heap w l)) as [p|];
      [|right; split; [by intros i|done]].
    destruct (price (heap w l) * qty (heap w l) <=? balance p);
      [|right; split; [by intros i|done]].
    destruct (gate_cases fuel Bids Asks l w) as [Hr|Hr]; [left|by right].
    by exists Bids.
  - apply String.eqb_eq in Ha.
    destruct (participants (book w) !! owner (heap w l)) as [p|];
      [|right; split; [by intros i|done]].
    destruct (qty (heap w l) <=? volume p);
      [|right; split; [by intros i|done]].
    destruct (gate_cases fuel Asks Bids l w) as [Hr|Hr]; [left|by right].
    by exists Asks.
  - right. split; [by intros i|done].
Qed.

(** ** What a call of [add] can have done *)

(** Whenever [add] returns an identifier, in whatever state it was called,
    the order is a BID or an ASK, the identifier is (bid volume + ask volume
    + 1) of the state before the call, and the state after the call is that
    state with the identifier written on the order and the order put on the
    side of its type: nothing was executed on the way. *)
Theorem add_identifier_means_rested (fuel : nat) (l : loc) (w w' : World) (i : Z) :
  add fuel l w = (w', Return (Some i)) →
  ∃ own, otype (heap w l) = tag own
    ∧ i = fst (Book_volume w) + snd (Book_volume w) + 1
    ∧ w' = rested own l w
    ∧ LTP (book w') = LTP (book w)
    ∧ side_of (opposite own) (book w') = side_of (opposite own) (book w)
    ∧ (∀ x, x ≠ l → heap w' x = heap w x).
Proof.
  intros Hadd. destruct (add_cases fuel l w) as [(own & Ht & Hr)|[Hno _]].
  - rewrite Hr in Hadd. injection Hadd as <- <-.
    exists own. split; [exact Ht|]. split; [reflexivity|]. split; [reflexivity|].
    split; [by destruct own|]. split; [by destruct own|].
    intros x Hx. by apply rested_heap_other.
  - exfalso. apply (Hno i). by rewrite Hadd.
Qed.

Lemma add_identifier_means_rested_witness :
  ∃ w', add 2 5%nat sweep_world = (w', Return (Some 14))
    ∧ w' = rested Bids 5%nat sweep_world.
Proof.
  assert (Hadd : add 2 5%nat sweep_world =
                 ((add 2 5%nat sweep_world).1, Return (Some 14))).
  { rewrite (surjective_pairing (add 2 5%nat sweep_world)) at 1.
    f_equal. }
  destruct (add_identifier_means_rested 2 5%nat sweep_world _ 14 Hadd)
    as (own & Ht & _ & Hw & _).
  exists (add 2 5%nat sweep_world).1. split; [exact Hadd|].
  rewrite Hw. by destruct own.
Defined.

(** However a call of [add] ends, an order that rests on a side after it
    rested on that side before it, or is the incoming order, on the side of
    its own type: [add] rests no other order and never puts the incoming
    one on the opposing side. *)
Theorem add_rests_only_incoming (fuel : nat) (l : loc) (w : World)
    (r : side_ref) (x : loc) :
  x ∈ Side.resting (side_of r (book (add fuel l w).1)) →
  x ∈ Side.resting (side_of r (book w))
  ∨ (x = l ∧ otype (heap w l) = tag r
     ∧ (add fuel l w).2 = Return (Some (fst (Book_volume w) + snd (Book_volume w) + 1))).
Proof.
  destruct (add_cases fuel l w) as [(own & Ht & Hr)|[_ Hsub]]; [|by left; apply Hsub].
  rewrite Hr. cbn [fst snd]. intros Hx.
  destruct (decide (r = own)) as [->|Hne].
  - assert (Hs : side_of own (book (rested own l w)) =
                 Side.put (heap (rested own l w)) (side_of own (book w)) l)
      by (by destruct own).
    rewrite Hs in Hx. apply resting_put in Hx as [->|Hx]; [right|by left].
    by repeat split.
  - left. assert (Hs : side_of r (book (rested own l w)) = side_of r (book w))
      by (by destruct r, own).
    by rewrite Hs in Hx.
Qed.

Lemma add_rests_only_incoming_witness :
  (3%nat ∉ Side.resting (bids (book sweep_world)))
  ∧ (3%nat ∉ Side.resting (bids (book (add 2 3%nat sweep_world).1))).
Proof.
  assert (Hnot : 3%nat ∉ Side.resting (bids (book sweep_world)))
    by apply not_elem_of_nil.
  split; [exact Hnot|]. intros Hin.
  destruct (add_rests_only_incoming 2 3%nat sweep_world Bids 3%nat Hin)
    as [Hb|(_ & _ & Hres)]; [by apply Hnot|].
  vm_compute in Hres. discriminate Hres.
Defined.

(** ** Resting and cancelling *)

Lemma others_own (h : store) (i : Z) (l : loc) :
  oid (h l) = i → Side.others h i [l] = [].
Proof.
  intros Hl. unfold Side.others.
  rewrite filter_cons_False by (intros Hk; by apply Hk). reflexivity.
Qed.

Lemma remove_levels_insert (h : store) (st : string) (p i : Z) (l : loc)
    (lvls : list (Z * list loc)) :
  oid (h l) = i →
  Forall (fun lv => snd lv ≠ []) lvls →
  Forall (fun x => oid (h x) ≠ i) (concat (map snd lvls)) →
  Side.remove_levels h i (Side.insert_level st p l lvls) = lvls.
Proof.
  intros Hl. induction lvls as [|[q queue] lvls IH]; intros Hne Habs.
  - cbn [Side.insert_level Side.remove_levels]. by rewrite (others_own _ _ _ Hl).
  - cbn [map concat snd] in Habs. apply Forall_app in Habs as [Hq Hrest].
    pose proof (Forall_inv Hne) as Hqne. cbn [snd] in Hqne.
    pose proof (Forall_inv_tail Hne) as Hne'.
    cbn [Side.insert_level].
    destruct (p =? q); [|destruct (Side.outranks st p q)];
      cbn [Side.remove_levels].
    + rewrite others_app, (others_all _ _ _ Hq), (others_own _ _ _ Hl), app_nil_r.
      rewrite (remove_levels_absent _ _ _ Hne' Hrest). by destruct queue.
    + rewrite (others_own _ _ _ Hl), (others_all _ _ _ Hq).
      rewrite (remove_levels_absent _ _ _ Hne' Hrest). by destruct queue.
    + rewrite (others_all _ _ _ Hq), (IH Hne' Hrest). by destruct queue.
Qed.

Lemma absent_after_rest (own : side_ref) (l : loc) (w : World) (i : Z) (s : Side.t) :
  l ∉ Side.resting s → absent (heap w) i s → absent (heap (rested own l w)) i s.
Proof.
  unfold absent. rewrite !Forall_forall. intros Hl Habs x Hx.
  rewrite rested_heap_other; [by apply Habs|]. intros ->. by apply Hl.
Qed.

Lemma cancel_after_rest (fuel : nat) (l : loc) (w w' : World) (i : Z) :
  add fuel l w = (w', Return (Some i)) →
  (∀ r, inhabited_levels (side_of r (book w))
        ∧ absent (heap w) i (side_of r (book w))
        ∧ l ∉ Side.resting (side_of r (book w))) →
  ∃ w'', cancel i w' = (w'', Return tt)
    ∧ book w'' = book w
    ∧ heap w'' = heap w'
    ∧ oid (heap w'' l) = i.
Proof.
  intros Hadd Hw.
  destruct (add_cases fuel l w) as [(own & Ht & Hr)|[Hno _]];
    [|exfalso; apply (Hno i); by rewrite Hadd].
  rewrite Hr in Hadd. injection Hadd as <- <-.
  exists (cancelled (rest_id w) (rested own l w)).
  split; [apply cancel_eq|].
  split; [|split; [reflexivity|]];
    [|change (oid (heap (rested own l w) l) = rest_id w);
      by rewrite rested_heap_at].
  assert (Hown : Side.remove (heap (rested own l w))
                   (Side.put (heap (rested own l w)) (side_of own (book w)) l)
                   (rest_id w) = side_of own (book w)).
  { destruct (Hw own) as (Hne & Habs & Hl).
    pose proof (absent_after_rest own l w _ _ Hl Habs) as Habs'.
    destruct (side_of own (book w)) as [st lvls]. unfold Side.remove, Side.put.
    cbn [Side.stype Side.levels]. f_equal.
    apply remove_levels_insert; [by rewrite rested_heap_at|exact Hne|exact Habs']. }
  assert (Hopp : Side.remove (heap (rested own l w))
                   (side_of (opposite own) (book w)) (rest_id w)
                 = side_of (opposite own) (book w)).
  { destruct (Hw (opposite own)) as (Hne & Habs & Hl).
    apply remove_absent; [exact Hne|]. by apply absent_after_rest. }
  assert (Hb : bids (book (cancelled (rest_id w) (rested own l w))) = bids (book w)).
  { destruct own; [exact Hown|exact Hopp]. }
  assert (Ha : asks (book (cancelled (rest_id w) (rested own l w))) = asks (book w)).
  { destruct own; [exact Hopp|exact Hown]. }
  assert (Hrestf : ∀ b b' : Book,
            name b' = name b → participants_ b' = participants_ b →
            params_ b' = params_ b → bids b' = bids b → asks b' = asks b →
            LTP b' = LTP b → b' = b).
  { intros [] []; cbn; by intros -> -> -> -> -> ->. }
  apply Hrestf; try assumption; by destruct own.
Qed.

(** An order that has come to rest and is cancelled by the identifier [add]
    returned leaves both sides as they were before it came in, when no
    resting order bore that identifier: [cancel] undoes [add].  The order
    object keeps the identifier. *)
Theorem cancel_undoes_rest (fuel : nat) (l : loc) (w w' : World) (i : Z) :
  add fuel l w = (w', Return (Some i)) →
  (∀ r, inhabited_levels (side_of r (book w))
        ∧ absent (heap w) i (side_of r (book w))
        ∧ l ∉ Side.resting (side_of r (book w))) →
  ∃ w'', cancel i w' = (w'', Return tt)
    ∧ book w'' = book w
    ∧ heap w'' = heap w'
    ∧ oid (heap w'' l) = i.
Proof. apply cancel_after_rest. Qed.

Lemma cancel_undoes_rest_witness :
  ∃ w' w'', add 2 5%nat sweep_world = (w', Return (Some 14))
    ∧ cancel 14 w' = (w'', Return tt)
    ∧ book w'' = book sweep_world.
Proof.
  assert (Hadd : add 2 5%nat sweep_world =
                 ((add 2 5%nat sweep_world).1, Return (Some 14))).
  { rewrite (surjective_pairing (add 2 5%nat sweep_world)) at 1. f_equal. }
  destruct (cancel_undoes_rest 2 5%nat sweep_world _ 14 Hadd)
    as (w'' & Hc & Hb & _).
  - intros []; cbn [side_of]; (split; [|split]).
    + constructor.
    + constructor.
    + apply not_elem_of_nil.
    + by repeat constructor.
    + compute_done.
    + compute_done.
  - by exists (add 2 5%nat sweep_world).1, w''.
Defined.

(** ** What a match takes from the book *)

Lemma queue_volume_other (h : store) (l : loc) (o : Order) (queue : list loc) :
  l ∉ queue → Side.queue_volume (<[l := o]> h) queue = Side.queue_volume h queue.
Proof.
  unfold Side.queue_volume. induction queue as [|x queue IH]; [reflexivity|].
  intros Hl. apply not_elem_of_cons in Hl as [Hlx Hl]. cbn [fold_right].
  by rewrite fn_lookup_insert_ne, (IH Hl).
Qed.

Lemma others_ext (h h' : store) (i : Z) (queue : list loc) :
  (∀ x, oid (h' x) = oid (h x)) → Side.others h' i queue = Side.others h i queue.
Proof.
  intros Hoid. unfold Side.others. apply list_filter_iff. intros x. by rewrite Hoid.
Qed.

Lemma remove_ext (h h' : store) (s : Side.t) (i : Z) :
  (∀ x, oid (h' x) = oid (h x)) → Side.remove h' s i = Side.remove h s i.
Proof.
  intros Hoid. unfold Side.remove. f_equal.
  induction (Side.levels s) as [|[p queue] lvls IH]; [reflexivity|].
  cbn [Side.remove_levels]. by rewrite (others_ext h h' i queue Hoid), IH.
Qed.

Lemma resting_cons_level (p : Z) (queue : list loc) (rest : list (Z * list loc)) :
  concat (map snd (cons_level p queue rest)) = queue ++ concat (map snd rest).
Proof. by destruct queue. Qed.

(** The sweep that uses the incoming order up takes exactly the incoming
    quantity out of the opposing side's volume, and touches the side of the
    incoming order only by removing the orders that bear its identifier. *)
Lemma sweep_takes_quantity (own : side_ref) (l : loc) (n : nat) :
  ∀ w : World,
  List.length (Side.resting (side_of (opposite own) (book w))) = n →
  sweepable own l w →
  (sweep own l (Side.resting (side_of (opposite own) (book w))) w).2 = true →
  Side.volume
    (heap (sweep own l (Side.resting (side_of (opposite own) (book w))) w).1)
    (side_of (opposite own)
       (book (sweep own l (Side.resting (side_of (opposite own) (book w))) w).1))
  = Side.volume (heap w) (side_of (opposite own) (book w)) - qty (heap w l)
  ∧ side_of own
      (book (sweep own l (Side.resting (side_of (opposite own) (book w))) w).1)
    = Side.remove (heap w) (side_of own (book w)) (oid (heap w l)).
Proof.
  induction n as [|n IH]; intros w Hlen Hsw Hm.
  { destruct (Side.resting (side_of (opposite own) (book w))); [done|done]. }
  pose proof Hsw as [Htag Hord].
  pose proof (orderly_incoming_not_resting _ _ _ _ _ Hord) as Hl.
  destruct (Side.levels (side_of (opposite own) (book w)))
    as [|[p [|o q1]] rest] eqn:Hlv.
  - unfold Side.resting in Hlen. by rewrite Hlv in Hlen.
  - destruct Hord as [Hne _ _ _ _]. by destruct (Forall_inv Hne).
  - assert (Hres : Side.resting (side_of (opposite own) (book w)) =
                   o :: (q1 ++ concat (map snd rest)))
      by (unfold Side.resting; by rewrite Hlv).
    rewrite Hres in Hm, Hlen |- *. cbn [List.length] in Hlen.
    assert (Hnd : NoDup (o :: (q1 ++ concat (map snd rest)))).
    { destruct Hord as [_ _ Hoid _ _]. by apply NoDup_fmap_1 in Hoid. }
    apply NoDup_cons in Hnd as [Ho _].
    assert (Hvol : Side.volume (heap w) (side_of (opposite own) (book w)) =
                   qty (heap w o)
                   + Side.queue_volume (heap w) (q1 ++ concat (map snd rest))).
    { by rewrite volume_resting, Hres. }
    cbn [sweep] in Hm |- *.
    destruct (qty (heap w l) <? qty (heap w o)) eqn:Hlt;
      [|destruct (qty (heap w l) =? qty (heap w o)) eqn:Heq]; cbn [fst].
    + split; [|by destruct own].
      rewrite side_of_executed_partial.
      assert (Hs : side_of (opposite own) (book (executed_full own l w)) =
                   side_of (opposite own) (book w)) by (by destruct own).
      rewrite Hs, volume_resting, Hres, Hvol.
      change (heap (executed_partial o (qty (heap w l)) (executed_full own l w)))
        with (<[o := sub_qty (qty (heap w l)) (heap w o)]> (heap w)).
      change (Side.queue_volume ?h (o :: ?tl))
        with (qty (h o) + Side.queue_volume h tl).
      rewrite fn_lookup_insert, (queue_volume_other _ _ _ _ Ho). cbn [qty sub_qty].
      lia.
    + split; [|by destruct own].
      apply Z.eqb_eq in Heq.
      rewrite side_of_executed_full, decide_True by done.
      assert (Hs : side_of (opposite own) (book (executed_full own l w)) =
                   side_of (opposite own) (book w)) by (by destruct own).
      rewrite Hs, volume_resting. unfold Side.resting, Side.remove.
      cbn [Side.levels heap executed_full]. rewrite Hlv.
      rewrite remove_levels_head, resting_cons_level, Hvol; [lia| |].
      * by destruct Hord as [_ _ Hoid _ _].
      * destruct Hord as [Hne _ _ _ _]. exact (Forall_inv_tail Hne).
    + apply Z.ltb_ge in Hlt. apply Z.eqb_neq in Heq.
      assert (Hgt : qty (heap w o) < qty (heap w l)) by lia.
      destruct (sweepable_step own l w p o q1 rest Hsw Hlv Hgt) as [Hsw2 Hlv2].
      set (w2 := executed_full (opposite own) o
                   (executed_partial l (qty (heap w o)) w)) in *.
      assert (Hres2 : Side.resting (side_of (opposite own) (book w2)) =
                      q1 ++ concat (map snd rest)).
      { unfold Side.resting. rewrite Hlv2. apply resting_cons_level. }
      rewrite <- Hres2 in Hm |- *.
      destruct (IH w2) as [Hv Hown]; [|exact Hsw2|exact Hm|].
      { rewrite Hres2. lia. }
      assert (Hfields : ∀ x, oid (heap w2 x) = oid (heap w x)).
      { intros x. apply (partial_fields (heap w) l (qty (heap w o)) x). }
      split.
      * rewrite Hv, Hvol, volume_resting, Hres2.
        change (heap w2) with (<[l := sub_qty (qty (heap w o)) (heap w l)]> (heap w)).
        rewrite fn_lookup_insert, queue_volume_other; [cbn [qty sub_qty]; lia|].
        intros Hin. apply Hl. cbn. by right.
      * rewrite Hown, Hfields, (remove_ext _ _ _ _ Hfields).
        f_equal. by destruct own.
Qed.

Lemma add_matched_effect (fuel : nat) (own : side_ref)
    (l : loc) (w : World) (top : Z) :
  (2 ≤ fuel)%nat →
  admitted w l own →
  sweepable own l w →
  Side.best (side_of (opposite own) (book w)) = inr top →
  compatible own (price (heap w l)) top = true →
  qty (heap w l) ≤ Side.volume (heap w) (side_of (opposite own) (book w)) →
  ∃ w', add fuel l w = (w', Return None)
    ∧ Side.volume (heap w') (side_of (opposite own) (book w'))
      = Side.volume (heap w) (side_of (opposite own) (book w)) - qty (heap w l)
    ∧ side_of own (book w')
      = Side.remove (heap w) (side_of own (book w)) (oid (heap w l)).
Proof.
  intros Hfuel Hadm Hsw Hbest Hc Hvol.
  pose proof (_match_sweeps fuel own l w top Hfuel Hsw Hbest Hc Hvol) as Hm.
  exists (sweep own l (Side.resting (side_of (opposite own) (book w))) w).1.
  split; [by apply (add_after_match fuel own)|].
  apply (sweep_takes_quantity own l _ w eq_refl Hsw).
  pose proof Hsw as [_ Hord].
  apply sweep_matched.
  - apply (orderly_incoming_not_resting _ _ _ _ _ Hord).
  - destruct Hord as [_ _ _ _ (_ & Hq & _)]. rewrite <- volume_resting. lia.
Qed.

(** An admitted order that passes the compatibility and sufficiency checks
    on an orderly opposing side: after [add], the opposing side's volume is
    lower by exactly the order's quantity, and the side of the order is what
    it was, less the orders that bear the incoming order's identifier, which
    leave it without being settled. *)
Theorem matched_order_takes_its_quantity (fuel : nat) (own : side_ref)
    (l : loc) (w : World) (top : Z) :
  (2 ≤ fuel)%nat →
  admitted w l own →
  sweepable own l w →
  Side.best (side_of (opposite own) (book w)) = inr top →
  compatible own (price (heap w l)) top = true →
  qty (heap w l) ≤ Side.volume (heap w) (side_of (opposite own) (book w)) →
  ∃ w', add fuel l w = (w', Return None)
    ∧ Side.volume (heap w') (side_of (opposite own) (book w'))
      = Side.volume (heap w) (side_of (opposite own) (book w)) - qty (heap w l)
    ∧ side_of own (book w')
      = Side.remove (heap w) (side_of own (book w)) (oid (heap w l)).
Proof. apply add_matched_effect. Qed.

Lemma matched_order_takes_its_quantity_witness :
  Side.volume (heap sweep_world) (asks (book sweep_world)) = 13
  ∧ qty (heap sweep_world 3%nat) = 9
  ∧ ∃ w', add 2 3%nat sweep_world = (w', Return None)
      ∧ Side.volume (heap w') (asks (book w')) = 4.
Proof.
  split; [reflexivity|]. split; [reflexivity|].
  destruct (matched_order_takes_its_quantity 2 Bids 3%nat sweep_world 500)
    as (w' & Hadd & Hv & _).
  - lia.
  - apply sweep_world_admitted. by left.
  - apply sweep_world_sweepable. by left.
  - reflexivity.
  - reflexivity.
  - cbn. lia.
  - exists w'. split; [exact Hadd|]. cbn [opposite side_of] in Hv. by rewrite Hv.
Defined.

Lemma through_world_admitted : admitted through_world 3%nat Bids.
Proof.
  split; [reflexivity|]. exists (mkParticipant "B" 20000 0). by split.
Defined.

Lemma through_world_sweepable : sweepable Bids 3%nat through_world.
Proof.
  split; [by split|]. split; cbn.
  - by repeat constructor.
  - compute_done.
  - compute_done.
  - compute_done.
  - repeat split; compute_done.
Defined.

Lemma filled_at_ext (h h' : store) (queue : list loc) :
  ∀ n, (∀ x, x ∈ queue → qty (h' x) = qty (h x)) →
  filled_at h' n queue = filled_at h n queue.
Proof.
  induction queue as [|o queue IH]; intros n Hq; [reflexivity|].
  cbn [filled_at]. rewrite (Hq o) by left.
  rewrite IH; [reflexivity|]. intros x Hx. apply Hq. by right.
Qed.

Lemma filled_at_elem (h : store) (queue : list loc) (o : loc) :
  ∀ n, filled_at h n queue = Some o → o ∈ queue.
Proof.
  induction queue as [|x queue IH]; intros n Hat; [done|].
  cbn [filled_at] in Hat. destruct (n <=? qty (h x)).
  - injection Hat as ->. left.
  - right. by apply (IH _ Hat).
Qed.

(** A quantity larger than what a queue holds is not used up in it. *)
Lemma filled_at_app (h : store) (q1 q2 : list loc) :
  ∀ n, Forall (fun x => 0 < qty (h x)) q1 →
  Side.queue_volume h q1 < n →
  filled_at h n (q1 ++ q2) = filled_at h (n - Side.queue_volume h q1) q2.
Proof.
  induction q1 as [|x q1 IH]; intros n Hpos Hlt.
  - cbn. f_equal. lia.
  - apply Forall_cons in Hpos as [Hx Hpos].
    change (Side.queue_volume h (x :: q1))
      with (qty (h x) + Side.queue_volume h q1) in Hlt |- *.
    assert (0 ≤ Side.queue_volume h q1) as Hnn.
    { clear -Hpos. induction q1 as [|y q1 IHq]; [done|].
      apply Forall_cons in Hpos as [Hy Hpos].
      change (Side.queue_volume h (y :: q1))
        with (qty (h y) + Side.queue_volume h q1).
      specialize (IHq Hpos). lia. }
    cbn [app filled_at].
    assert ((n <=? qty (h x)) = false) as -> by lia.
    rewrite IH; [f_equal; lia|exact Hpos|lia].
Qed.

(** The sweep that uses the incoming order up ends on the order at which
    the incoming quantity is used up.  The orders before it in priority
    order have left the side; that order stays, at the head of the side,
    when it is larger than what was left of the incoming quantity, and
    leaves too otherwise; the orders after it rest as before.  LTP is that
    order's price: both matching branches execute the resting order last. *)
Lemma sweep_ends_at (own : side_ref) (l : loc) (n : nat) :
  ∀ w : World,
  List.length (Side.resting (side_of (opposite own) (book w))) = n →
  sweepable own l w →
  (sweep own l (Side.resting (side_of (opposite own) (book w))) w).2 = true →
  ∃ before o after,
    Side.resting (side_of (opposite own) (book w)) = before ++ o :: after
    ∧ filled_at (heap w) (qty (heap w l))
        (Side.resting (side_of (opposite own) (book w))) = Some o
    ∧ Side.resting (side_of (opposite own)
        (book (sweep own l (Side.resting (side_of (opposite own) (book w))) w).1))
      = (if qty (heap w l) - Side.queue_volume (heap w) before <? qty (heap w o)
         then o :: after else after)
    ∧ LTP (book (sweep own l (Side.resting (side_of (opposite own) (book w))) w).1)
      = price (heap w o).
Proof.
  induction n as [|n IH]; intros w Hlen Hsw Hm.
  { destruct (Side.resting (side_of (opposite own) (book w))); [done|done]. }
  pose proof Hsw as [Htag Hord].
  pose proof (orderly_incoming_not_resting _ _ _ _ _ Hord) as Hl.
  destruct (Side.levels (side_of (opposite own) (book w)))
    as [|[p [|o q1]] rest] eqn:Hlv.
  - unfold Side.resting in Hlen. by rewrite Hlv in Hlen.
  - destruct Hord as [Hne _ _ _ _]. by destruct (Forall_inv Hne).
  - assert (Hres : Side.resting (side_of (opposite own) (book w)) =
                   o :: (q1 ++ concat (map snd rest)))
      by (unfold Side.resting; by rewrite Hlv).
    rewrite Hres in Hm, Hlen |- *. cbn [List.length] in Hlen.
    assert (Hs : side_of (opposite own) (book (executed_full own l w)) =
                 side_of (opposite own) (book w)) by (by destruct own).
    cbn [sweep filled_at] in Hm |- *.
    destruct (qty (heap w l) <? qty (heap w o)) eqn:Hlt;
      [|destruct (qty (heap w l) =? qty (heap w o)) eqn:Heq]; cbn [fst].
    + exists [], o, (q1 ++ concat (map snd rest)).
      cbn [app Side.queue_volume fold_right]. rewrite Z.sub_0_r, Hlt.
      assert ((qty (heap w l) <=? qty (heap w o)) = true) as -> by lia.
      split; [done|]. split; [done|]. split; [|by destruct own].
      by rewrite side_of_executed_partial, Hs.
    + exists [], o, (q1 ++ concat (map snd rest)).
      cbn [app Side.queue_volume fold_right]. rewrite Z.sub_0_r, Hlt.
      assert ((qty (heap w l) <=? qty (heap w o)) = true) as -> by lia.
      split; [done|]. split; [done|]. split; [|by destruct own].
      rewrite side_of_executed_full, decide_True by done.
      rewrite Hs. unfold Side.resting, Side.remove.
      cbn [Side.levels heap executed_full]. rewrite Hlv.
      rewrite remove_levels_head, resting_cons_level; [done| |].
      * by destruct Hord as [_ _ Hoid _ _].
      * destruct Hord as [Hne _ _ _ _]. exact (Forall_inv_tail Hne).
    + assert ((qty (heap w l) <=? qty (heap w o)) = false) as -> by lia.
      assert (Hgt : qty (heap w o) < qty (heap w l)) by lia.
      destruct (sweepable_step own l w p o q1 rest Hsw Hlv Hgt) as [Hsw2 Hlv2].
      set (w2 := executed_full (opposite own) o
                   (executed_partial l (qty (heap w o)) w)) in *.
      assert (Hres2 : Side.resting (side_of (opposite own) (book w2)) =
                      q1 ++ concat (map snd rest)).
      { unfold Side.resting. rewrite Hlv2. apply resting_cons_level. }
      rewrite <- Hres2 in Hm |- *.
      destruct (IH w2) as (before & o' & after & Hsplit & Hat & Hrest & Hltp);
        [|exact Hsw2|exact Hm|].
      { rewrite Hres2. lia. }
      assert (Hh2 : heap w2 = <[l := sub_qty (qty (heap w o)) (heap w l)]> (heap w))
        by reflexivity.
      assert (Hq2 : ∀ x, x ∈ q1 ++ concat (map snd rest) →
                         qty (heap w2 x) = qty (heap w x)).
      { intros x Hx. rewrite Hh2, fn_lookup_insert_ne; [reflexivity|].
        intros ->. apply Hl. cbn. by right. }
      assert (Hl2 : qty (heap w2 l) = qty (heap w l) - qty (heap w o))
        by (by rewrite Hh2, fn_lookup_insert).
      exists (o :: before), o', after.
      split; [cbn [app]; by rewrite <- Hsplit|].
      split.
      { rewrite <- Hat, Hl2. symmetry. apply filled_at_ext.
        intros x Hx. apply Hq2. by rewrite <- Hres2. }
      split.
      { rewrite Hrest, Hl2.
        change (Side.queue_volume (heap w) (o :: before))
          with (qty (heap w o) + Side.queue_volume (heap w) before).
        assert (Hb : Side.queue_volume (heap w2) before
                     = Side.queue_volume (heap w) before).
        { rewrite Hh2. apply queue_volume_other. intros Hin. apply Hl.
          cbn. right. rewrite <- Hres2, Hsplit. apply elem_of_app. by left. }
        rewrite Hb, (Hq2 o').
        - by replace (qty (heap w l) - qty (heap w o) - Side.queue_volume (heap w) before)
            with (qty (heap w l) - (qty (heap w o) + Side.queue_volume (heap w) before))
            by lia.
        - rewrite <- Hres2, Hsplit. apply elem_of_app. right. left. }
      rewrite Hltp. apply (partial_fields (heap w) l (qty (heap w o)) o').
Qed.

(** What [add] does with an admitted order that passes both checks on an
    orderly opposing side: the state it leaves, the order at which the
    incoming quantity is used up and the last traded price. *)
Lemma add_matched_trace (fuel : nat) (own : side_ref)
    (l : loc) (w : World) (top : Z) :
  (2 ≤ fuel)%nat →
  admitted w l own →
  sweepable own l w →
  Side.best (side_of (opposite own) (book w)) = inr top →
  compatible own (price (heap w l)) top = true →
  qty (heap w l) ≤ Side.volume (heap w) (side_of (opposite own) (book w)) →
  ∃ w' before o after, add fuel l w = (w', Return None)
    ∧ Side.volume (heap w') (side_of (opposite own) (book w'))
      = Side.volume (heap w) (side_of (opposite own) (book w)) - qty (heap w l)
    ∧ Side.resting (side_of (opposite own) (book w)) = before ++ o :: after
    ∧ filled_at (heap w) (qty (heap w l))
        (Side.resting (side_of (opposite own) (book w))) = Some o
    ∧ Side.resting (side_of (opposite own) (book w'))
      = (if qty (heap w l) - Side.queue_volume (heap w) before <? qty (heap w o)
         then o :: after else after)
    ∧ LTP (book w') = price (heap w o).
Proof.
  intros Hfuel Hadm Hsw Hbest Hc Hvol.
  pose proof (_match_sweeps fuel own l w top Hfuel Hsw Hbest Hc Hvol) as Hm.
  pose proof Hsw as [_ Hord].
  pose proof (orderly_incoming_not_resting _ _ _ _ _ Hord) as Hl.
  assert (Hflag : (sweep own l (Side.resting (side_of (opposite own) (book w))) w).2
                  = true).
  { apply sweep_matched; [exact Hl|].
    destruct Hord as [_ _ _ _ (_ & Hq & _)]. rewrite <- volume_resting. lia. }
  destruct (sweep_ends_at own l _ w eq_refl Hsw Hflag)
    as (before & o & after & Hsplit & Hat & Hrest & Hltp).
  destruct (sweep_takes_quantity own l _ w eq_refl Hsw Hflag) as [Hv _].
  exists (sweep own l (Side.resting (side_of (opposite own) (book w))) w).1,
    before, o, after.
  split; [by apply (add_after_match fuel own)|]. by repeat split.
Qed.

(** The compatibility check of [_match] looks at the best price only.  An
    admitted order compatible with the best level of an orderly opposing
    side, larger than that level and within the opposing side's volume, is
    matched in full even when its limit excludes every other level: [add]
    returns no identifier, the opposing side's volume is lower by exactly
    the order's quantity, which is less than what rested at the excluded
    levels alone, and the incoming quantity is used up on an order of an
    excluded level, whose price LTP takes. *)
Theorem match_trades_through_limit (fuel : nat) (own : side_ref) (l : loc)
    (w : World) (p1 : Z) (q1 : list loc) (beyond : list (Z * list loc)) :
  (2 ≤ fuel)%nat →
  admitted w l own →
  sweepable own l w →
  Side.levels (side_of (opposite own) (book w)) = (p1, q1) :: beyond →
  compatible own (price (heap w l)) p1 = true →
  Forall (fun lv => compatible own (price (heap w l)) (fst lv) = false) beyond →
  Side.queue_volume (heap w) q1 < qty (heap w l) →
  qty (heap w l) ≤ Side.volume (heap w) (side_of (opposite own) (book w)) →
  ∃ w' o, add fuel l w = (w', Return None)
    ∧ Side.volume (heap w') (side_of (opposite own) (book w'))
      = Side.volume (heap w) (side_of (opposite own) (book w)) - qty (heap w l)
    ∧ Side.volume (heap w') (side_of (opposite own) (book w'))
      < Side.queue_volume (heap w) (concat (map snd beyond))
    ∧ filled_at (heap w) (qty (heap w l))
        (Side.resting (side_of (opposite own) (book w))) = Some o
    ∧ o ∈ concat (map snd beyond)
    ∧ LTP (book w') = price (heap w o).
Proof.
  intros Hfuel Hadm Hsw Hlv Hc _ Hq1 Hvol.
  assert (Hbest : Side.best (side_of (opposite own) (book w)) = inr p1)
    by (unfold Side.best; by rewrite Hlv).
  destruct (add_matched_trace fuel own l w p1 Hfuel Hadm Hsw Hbest Hc Hvol)
    as (w' & before & o & after & Hadd & Hv & _ & Hat & _ & Hltp).
  assert (Hres : Side.resting (side_of (opposite own) (book w)) =
                 q1 ++ concat (map snd beyond))
    by (unfold Side.resting; by rewrite Hlv).
  exists w', o. split; [exact Hadd|]. split; [exact Hv|].
  split; [rewrite Hv, volume_resting, Hres, queue_volume_app; lia|].
  split; [exact Hat|]. split; [|exact Hltp].
  rewrite Hres, filled_at_app in Hat; [by apply filled_at_elem in Hat| |exact Hq1].
  destruct Hsw as [_ [_ _ _ Hsound _]]. rewrite Hlv in Hsound.
  cbn [map concat snd] in Hsound. apply Forall_app in Hsound as [Hsound _].
  eapply Forall_impl; [exact Hsound|]. by intros x (_ & Hx & _).
Qed.

(** B's bid for 9 units limited to 5.00 against 7 units at 5.00 and 6 at
    5.10: the bid is matched, 4 units are left at 5.10, and LTP is 5.10. *)
Lemma match_trades_through_limit_witness :
  price (heap through_world 3%nat) = 500
  ∧ Side.levels (asks (book through_world)) =
      [(500, [0%nat; 1%nat]); (510, [2%nat])]
  ∧ ∃ w', add 2 3%nat through_world = (w', Return None)
      ∧ Side.volume (heap w') (asks (book w')) = 4
      ∧ LTP (book w') = 510.
Proof.
  split; [reflexivity|]. split; [reflexivity|].
  destruct (match_trades_through_limit 2 Bids 3%nat through_world 500
              [0%nat; 1%nat] [(510, [2%nat])])
    as (w' & o & Hadd & Hv & _ & Hat & _ & Hltp).
  - lia.
  - apply through_world_admitted.
  - apply through_world_sweepable.
  - reflexivity.
  - reflexivity.
  - by repeat constructor.
  - cbn. lia.
  - cbn. lia.
  - exists w'. split; [exact Hadd|]. split; [exact Hv|].
    change (filled_at (heap through_world) 9 [0%nat; 1%nat; 2%nat] = Some o) in Hat.
    vm_compute in Hat. injection Hat as <-. exact Hltp.
Defined.

(** ** A book left crossed *)

Lemma best_put (h : store) (s : Side.t) (l : loc) :
  ∃ b, Side.best (Side.put h s l) = inr b
    ∧ (b = price (h l) ∨ Side.outranks (Side.stype s) b (price (h l)) = true).
Proof.
  unfold Side.best, Side.put. cbn [Side.levels Side.stype].
  destruct (Side.levels s) as [|[q queue] lvls]; cbn [Side.insert_level].
  - exists (price (h l)). by split; [|left].
  - destruct (price (h l) =? q) eqn:Hpq; [|destruct (Side.outranks _ _ q) eqn:Hr].
    + apply Z.eqb_eq in Hpq. exists q. by split; [|left].
    + exists (price (h l)). by split; [|left].
    + exists q. split; [done|]. right. by apply outranks_total.
Qed.

Lemma crossed_eq (w : World) (pb pa : Z) :
  Side.best (bids (book w)) = inr pb →
  Side.best (asks (book w)) = inr pa →
  crossed w = (w, Return (pa <=? pb)).
Proof.
  intros Hb Ha. unfold crossed, bind, get_book, lift. cbn [book].
  rewrite Hb, Ha. unfold ret. by destruct (pa <=? pb).
Qed.

(** An admitted order that comes to rest for want of volume, its limit
    being compatible with the opposing side's best price, leaves the book
    crossed: right after [add], [crossed] returns True. *)
Theorem volume_rest_leaves_book_crossed (fuel : nat) (own : side_ref) (l : loc)
    (w : World) (top : Z) :
  tagged (book w) →
  admitted w l own →
  Side.best (side_of (opposite own) (book w)) = inr top →
  compatible own (price (heap w l)) top = true →
  Side.volume (heap w) (side_of (opposite own) (book w)) < qty (heap w l) →
  ∃ w' i, add fuel l w = (w', Return (Some i))
    ∧ crossed w' = (w', Return true).
Proof.
  intros Htag Hadm Hbest Hc Hvol.
  exists (rested own l w), (rest_id w). split.
  { eapply add_after_signal; [done| |by left].
    by eapply _match_insufficient_volume. }
  destruct (best_put (heap (rested own l w)) (side_of own (book w)) l)
    as (b & Hb & Hrank).
  rewrite rested_heap_at in Hrank. cbn [price set_oid] in Hrank.
  rewrite (stype_side_of _ _ Htag) in Hrank.
  assert (Hown : Side.best (side_of own (book (rested own l w))) = inr b)
    by (destruct own; exact Hb).
  assert (Hopp : Side.best (side_of (opposite own) (book (rested own l w))) = inr top)
    by (destruct own; exact Hbest).
  unfold Side.outranks in Hrank.
  destruct own; cbn [opposite side_of tag compatible] in *; cbn in Hrank.
  - rewrite (crossed_eq _ _ _ Hown Hopp).
    assert ((top <=? b) = true) as -> by (apply Z.leb_le; lia). reflexivity.
  - rewrite (crossed_eq _ _ _ Hopp Hown).
    assert ((b <=? top) = true) as -> by (apply Z.leb_le; lia). reflexivity.
Qed.

Lemma volume_rest_leaves_book_crossed_witness :
  ∃ w', add 2 4%nat sweep_world = (w', Return (Some 14))
    ∧ Side.best (bids (book w')) = inr 510
    ∧ Side.best (asks (book w')) = inr 500
    ∧ crossed w' = (w', Return true).
Proof.
  destruct (volume_rest_leaves_book_crossed 2 Bids 4%nat sweep_world 500)
    as (w' & i & Hadd & Hx).
  - by split.
  - apply sweep_world_admitted. right. by left.
  - reflexivity.
  - reflexivity.
  - cbn. lia.
  - exists w'.
    assert (Hw : (add 2 4%nat sweep_world).1 = w') by (by rewrite Hadd).
    assert (Hi : (add 2 4%nat sweep_world).2 = Return (Some i)) by (by rewrite Hadd).
    vm_compute in Hi. injection Hi as <-.
    split; [exact Hadd|]. split; [|split; [|exact Hx]]; by rewrite <- Hw.
Defined.

(** ** Identifiers come back *)

Lemma volume_ext (h h' : store) (s : Side.t) :
  (∀ x, qty (h' x) = qty (h x)) → Side.volume h' s = Side.volume h s.
Proof.
  intros Hq. unfold Side.volume.
  induction (Side.levels s) as [|[p queue] lvls IH]; [reflexivity|].
  cbn [fold_right snd]. rewrite IH. f_equal.
  unfold Side.queue_volume. induction queue as [|x queue IHq]; [reflexivity|].
  cbn [fold_right]. by rewrite Hq, IHq.
Qed.

(** An identifier [add] has given is given again: once an order has come to
    rest and has been cancelled by its identifier, the next order that
    comes to rest gets the same identifier, the cancelled order itself
    included if it is submitted anew. *)
Theorem identifier_given_again (fuel fuel' : nat) (l l' : loc)
    (w w1 w2 w3 : World) (i i' : Z) :
  add fuel l w = (w1, Return (Some i)) →
  (∀ r, inhabited_levels (side_of r (book w))
        ∧ absent (heap w) i (side_of r (book w))
        ∧ l ∉ Side.resting (side_of r (book w))) →
  cancel i w1 = (w2, Return tt) →
  add fuel' l' w2 = (w3, Return (Some i')) →
  i' = i.
Proof.
  intros Hadd Hw Hcancel Hadd'.
  destruct (cancel_after_rest fuel l w w1 i Hadd Hw) as (w2' & Hc & Hb & Hh & _).
  rewrite Hc in Hcancel. injection Hcancel as ->.
  destruct (add_cases fuel l w) as [(own & _ & Hr)|[Hno _]];
    [|exfalso; apply (Hno i); by rewrite Hadd].
  rewrite Hr in Hadd. injection Hadd as <- <-.
  destruct (add_cases fuel' l' w2) as [(own' & _ & Hr')|[Hno _]];
    [|exfalso; apply (Hno i'); by rewrite Hadd'].
  rewrite Hr' in Hadd'. injection Hadd' as _ <-.
  unfold rest_id. rewrite Hb, Hh.
  assert (Hq : ∀ x, qty (heap (rested own l w) x) = qty (heap w x)).
  { intros x. destruct (decide (x = l)) as [->|Hne].
    - by rewrite rested_heap_at.
    - by rewrite rested_heap_other. }
  by rewrite !(volume_ext _ _ _ Hq).
Qed.

Lemma identifier_given_again_witness :
  ∃ w1 w2 w3, add 2 5%nat sweep_world = (w1, Return (Some 14))
    ∧ cancel 14 w1 = (w2, Return tt)
    ∧ add 2 4%nat w2 = (w3, Return (Some 14))
    ∧ 14 = 14.
Proof.
  set (w1 := (add 2 5%nat sweep_world).1).
  set (w2 := cancelled 14 w1).
  set (w3 := (add 2 4%nat w2).1).
  assert (Hadd : add 2 5%nat sweep_world = (w1, Return (Some 14))).
  { rewrite (surjective_pairing (add 2 5%nat sweep_world)) at 1. f_equal. }
  assert (Hc : cancel 14 w1 = (w2, Return tt)) by apply cancel_eq.
  assert (Hadd' : add 2 4%nat w2 = (w3, Return (Some 14))).
  { rewrite (surjective_pairing (add 2 4%nat w2)) at 1. f_equal. }
  exists w1, w2, w3. split; [exact Hadd|]. split; [exact Hc|]. split; [exact Hadd'|].
  apply (identifier_given_again 2 2 5%nat 4%nat sweep_world w1 w2 w3 14 14
           Hadd); [|exact Hc|exact Hadd'].
  intros []; cbn [side_of]; (split; [|split]).
  - constructor.
  - constructor.
  - apply not_elem_of_nil.
  - by repeat constructor.
  - compute_done.
  - compute_done.
Defined.

(** ** The last traded price *)

(** After an admitted order has passed both checks on an orderly opposing
    side and has been matched, LTP is the price of the last resting order
    the match executed: the order at which the incoming quantity was used
    up, the opposing side's orders being taken best price first and oldest
    first.  The orders before that one have left the side, the orders after
    it rest as before, and that order itself is at the head of the side
    when the incoming order did not take all of it. *)
Theorem match_sets_LTP_to_resting_price (fuel : nat) (own : side_ref) (l : loc)
    (w : World) (top : Z) :
  (2 ≤ fuel)%nat →
  admitted w l own →
  sweepable own l w →
  Side.best (side_of (opposite own) (book w)) = inr top →
  compatible own (price (heap w l)) top = true →
  qty (heap w l) ≤ Side.volume (heap w) (side_of (opposite own) (book w)) →
  ∃ w' before o after, add fuel l w = (w', Return None)
    ∧ Side.resting (side_of (opposite own) (book w)) = before ++ o :: after
    ∧ filled_at (heap w) (qty (heap w l))
        (Side.resting (side_of (opposite own) (book w))) = Some o
    ∧ Side.resting (side_of (opposite own) (book w'))
      = (if qty (heap w l) - Side.queue_volume (heap w) before <? qty (heap w o)
         then o :: after else after)
    ∧ LTP (book w') = price (heap w o).
Proof.
  intros Hfuel Hadm Hsw Hbest Hc Hvol.
  destruct (add_matched_trace fuel own l w top Hfuel Hadm Hsw Hbest Hc Hvol)
    as (w' & before & o & after & Hadd & _ & Hsplit & Hat & Hrest & Hltp).
  by exists w', before, o, after.
Qed.

(** B's bid for 9 units limited to 5.00 takes the 4 and the 3 units at 5.00
    and is used up on the 6 units at 5.10 (object 2), which stays with 4
    units: LTP is 5.10, above the limit of the bid. *)
Lemma match_sets_LTP_to_resting_price_witness :
  price (heap through_world 3%nat) = 500
  ∧ Side.resting (asks (book through_world)) = [0%nat; 1%nat; 2%nat]
  ∧ filled_at (heap through_world) 9 [0%nat; 1%nat; 2%nat] = Some 2%nat
  ∧ ∃ w', add 2 3%nat through_world = (w', Return None)
      ∧ Side.resting (asks (book w')) = [2%nat]
      ∧ LTP (book w') = 510.
Proof.
  split; [reflexivity|]. split; [reflexivity|]. split; [reflexivity|].
  destruct (match_sets_LTP_to_resting_price 2 Bids 3%nat through_world 500)
    as (w' & before & o & after & Hadd & _ & Hat & _ & Hltp).
  - lia.
  - apply through_world_admitted.
  - apply through_world_sweepable.
  - reflexivity.
  - reflexivity.
  - cbn. lia.
  - exists w'. split; [exact Hadd|].
    change (filled_at (heap through_world) 9 [0%nat; 1%nat; 2%nat] = Some o) in Hat.
    vm_compute in Hat. injection Hat as <-.
    split; [|exact Hltp].
    assert (Hw : (add 2 3%nat through_world).1 = w') by (by rewrite Hadd).
    by rewrite <- Hw.
Defined.
